(** * glosm: PreloadedXmlDatasource

    A shallow embedding of [libglosm-server/src/PreloadedXmlDatasource.cc]:
    the coordinate codec [ParseCoord], the tag parser [ParseTag], the bounds
    parsers, the SAX handlers [StartElement] / [EndElement], [Load], [Clear]
    and the lookups, followed by the properties of the written specification
    that concern them.

    Conventions.
    - A [const char*] is a [string] (the terminating NUL is implicit and no
      embedded NUL is assumed); expat's NULL-terminated [atts] array of
      name/value pairs is a [list (string * string)].
    - [int] and [osmid_t] values are [Z]; where the source narrows or can
      overflow the wrap-around is written out ([wrap32], [wrap64]).
    - The build modelled is the default one (TRUSTED_XML undefined), in which
      every [StrEq<I>] is [strcmp(..) == 0].
    - A [throw] is an [exception] value; the datasource object survives a
      throw, so a failing handler returns the state reached.
    - Undefined behaviour of the C++ source (front() of an empty vector, a
      read of an uninitialised local, a dereference of a null pointer or of
      an invalid iterator) is the explicit outcome [Undefined]. *)

From Stdlib Require Import ZArith String Ascii List Lia Bool.
From stdpp Require Import base option gmap strings list fin_maps sorting.

Local Open Scope string_scope.
Local Open Scope Z_scope.

(** ** Exceptions and outcomes *)

(** Modelled from the spec: the exception classes are declared in a header
    that is not among the source files; the source names [Exception],
    [ParsingException], [DataException] and [SystemError] and streams a
    message into each, and the spec's taxonomy has them as the generic,
    parsing, data and system errors. *)
Inductive exception : Type :=
| Exception (msg : string)
| ParsingException (msg : string)
| DataException (msg : string)
| SystemError (msg : string).

(** Result of a function without side effects. *)
Inductive result (A : Type) : Type :=
| Val (a : A)
| Raise (e : exception).
Arguments Val {A} a.
Arguments Raise {A} e.

Definition rbind {A B} (r : result A) (k : A -> result B) : result B :=
  match r with
  | Val a => k a
  | Raise e => Raise e
  end.

Definition is_parsing_error {A} (r : result A) : Prop :=
  match r with
  | Raise (ParsingException _) => True
  | _ => False
  end.

(** ** Machine integers *)

Definition INT_MAX : Z := 2147483647.
Definition INT_MIN : Z := -2147483648.
Definition LONG_MAX : Z := 9223372036854775807.
Definition LONG_MIN : Z := -9223372036854775808.

(** Two's complement reduction to [w] bits, signed. [int] has 32 bits;
    [osmlong_t], whose typedef is not among the source files, has 64 (the
    spec asks for an accumulator of twice the width of a coordinate). *)
Definition wrap (w : Z) (z : Z) : Z :=
  (z + 2 ^ (w - 1)) mod 2 ^ w - 2 ^ (w - 1).
Definition wrap32 : Z -> Z := wrap 32.
Definition wrap64 : Z -> Z := wrap 64.

Definition in_int (z : Z) : Prop := INT_MIN <= z <= INT_MAX.
Definition in_long (z : Z) : Prop := LONG_MIN <= z <= LONG_MAX.

(** ** Characters *)

Definition code (c : ascii) : Z := Z.of_N (N_of_ascii c).

(** [*cur >= '0' && *cur <= '9'] *)
Definition is_digit (c : ascii) : bool := (48 <=? code c) && (code c <=? 57).

(** [*cur - '0'] *)
Definition digit_val (c : ascii) : Z := code c - 48.

(** isspace() in the C locale, as strtol uses it. *)
Definition is_space (c : ascii) : bool :=
  (code c =? 32) || ((9 <=? code c) && (code c <=? 13)).

(** ** ParseCoord *)

Definition too_large : exception :=
  ParsingException "bad coordinate format (value too large)".
Definition unexpected_symbol : exception :=
  ParsingException "bad coordinate format (unexpected symbol)".
Definition multiple_dots : exception :=
  ParsingException "bad coordinate format (multiple dots)".

(** The scanning loop of [ParseCoord]; its result is the triple
    [(value, fracdig, haddot)] at loop exit (end of string or [break]). *)
Fixpoint ParseCoord_loop (cur : string) (value fracdig haddot : Z)
  : result (Z * Z * Z) :=
  match cur with
  | EmptyString => Val (value, fracdig, haddot)
  | String c rest =>
      if is_digit c then
        let value := value * 10 + digit_val c in
        if (haddot =? 0) && (value >? 180) then Raise too_large
        else if negb (haddot =? 0) then
          let fracdig := fracdig + 1 in
          if fracdig =? 7 then Val (value, fracdig, haddot)
          else ParseCoord_loop rest value fracdig haddot
        else ParseCoord_loop rest value fracdig haddot
      else if Ascii.eqb c "." then
        ParseCoord_loop rest value fracdig (haddot + 1)
      else Raise unexpected_symbol
  end.

(** [for (; fracdig < 7; ++fracdig) value *= 10;] *)
Definition pad_fraction (value fracdig : Z) : Z :=
  Nat.iter (Z.to_nat (7 - fracdig)) (fun v => v * 10) value.

(** What follows the sign test: the scan from [cur], the check of the
    number of dots, the padding and the sign. *)
Definition ParseCoord_from (neg : bool) (cur : string) : result Z :=
  rbind (ParseCoord_loop cur 0 0 0) (fun '(value, fracdig, haddot) =>
    if haddot >? 1 then Raise multiple_dots
    else
      let value := pad_fraction value fracdig in
      Val (if neg then - value else value)).

Definition ParseCoord (str : string) : result Z :=
  match str with
  | String c rest =>
      if Ascii.eqb c "-" then ParseCoord_from true rest
      else ParseCoord_from false str
  | EmptyString => ParseCoord_from false str
  end.

(** ** strtol and integer output *)

Fixpoint skip_space (s : string) : string :=
  match s with
  | String c rest => if is_space c then skip_space rest else s
  | EmptyString => s
  end.

Fixpoint strtol_digits (s : string) (acc : Z) : Z :=
  match s with
  | String c rest =>
      if is_digit c then strtol_digits rest (acc * 10 + digit_val c) else acc
  | EmptyString => acc
  end.

Definition clamp_long (z : Z) : Z := Z.max LONG_MIN (Z.min LONG_MAX z).

(** [strtol(s, NULL, 10)] of the C library with a 64-bit [long]: leading
    white space, an optional sign, the longest run of decimal digits (0 when
    there is none), saturating at [LONG_MIN] / [LONG_MAX]. *)
Definition strtol (s : string) : Z :=
  match skip_space s with
  | String c rest =>
      if Ascii.eqb c "-" then clamp_long (- strtol_digits rest 0)
      else if Ascii.eqb c "+" then clamp_long (strtol_digits rest 0)
      else clamp_long (strtol_digits (String c rest) 0)
  | EmptyString => clamp_long 0
  end.

(** [int id = strtol(..)]: the [long] is narrowed to [int]. *)
Definition strtol_int (s : string) : Z := wrap32 (strtol s).

Definition digit_char (d : Z) : ascii := ascii_of_N (Z.to_N (48 + d)).

Fixpoint dec_digits (fuel : nat) (n : Z) (acc : string) : string :=
  match fuel with
  | O => acc
  | S fuel =>
      let acc := String (digit_char (n mod 10)) acc in
      if n <? 10 then acc else dec_digits fuel (n / 10) acc
  end.

(** [stream << z] for an integer: its decimal representation. *)
Definition dec (z : Z) : string :=
  if z <? 0 then String "-" (dec_digits (S (Z.to_nat (Z.log2 (- z)))) (- z) "")
  else dec_digits (S (Z.to_nat (Z.log2 z))) z "".

(** ** Geometry *)

(** The fields [x] and [y] the source reads from a position. *)
Record Vector2i : Type := { x : Z; y : Z }.

(** The four fields are the ones the source assigns. *)
Record BBoxi : Type := { left : Z; bottom : Z; right : Z; top : Z }.

Module BBoxi.

(** Modelled from the spec: [BBoxi::Empty()], declared in a header that is
    not among the source files. The spec asks for an explicit empty
    sentinel, distinguishable from a zero-area box: the inverted box of the
    extreme coordinates. *)
Definition Empty : BBoxi :=
  {| left := INT_MAX; bottom := INT_MAX; right := INT_MIN; top := INT_MIN |}.

(** Modelled from the spec: [BBoxi::IsEmpty()], from the same header. A box
    is empty when it is inverted; a box of zero area is not. *)
Definition IsEmpty (b : BBoxi) : bool :=
  (left b >? right b) || (bottom b >? top b).

(** Modelled from the spec: [BBoxi::Include(point)], from the same header:
    the inclusion of a point expands the box to cover it. *)
Definition Include (p : Vector2i) (b : BBoxi) : BBoxi :=
  {| left := if x p <? left b then x p else left b;
     bottom := if y p <? bottom b then y p else bottom b;
     right := if x p >? right b then x p else right b;
     top := if y p >? top b then y p else top b |}.

End BBoxi.

Definition set_bottom (v : Z) (b : BBoxi) : BBoxi :=
  {| left := left b; bottom := v; right := right b; top := top b |}.
Definition set_top (v : Z) (b : BBoxi) : BBoxi :=
  {| left := left b; bottom := bottom b; right := right b; top := v |}.
Definition set_left (v : Z) (b : BBoxi) : BBoxi :=
  {| left := v; bottom := bottom b; right := right b; top := top b |}.
Definition set_right (v : Z) (b : BBoxi) : BBoxi :=
  {| left := left b; bottom := bottom b; right := v; top := top b |}.

(** ** The data model *)

(** The records below have the members the source uses; their declarations
    are in a header that is not among the source files. *)
Record Node : Type := { Pos : Vector2i }.

(** Modelled from the spec: the constructor [Node(lon, lat)]; the position
    of a node is the pair (longitude, latitude). *)
Definition mkNode (lon lat : Z) : Node := {| Pos := {| x := lon; y := lat |} |}.

(** [Tags] is a [TagsMap]: a map from string to string with one value per
    key (the spec's string-keyed tag mapping). *)
Record Way : Type := {
  Nodes : list Z;
  Tags : gmap string string;
  Closed : bool;
  Clockwise : bool;
  BBox : BBoxi
}.

(** Modelled from the spec: the constructor [Way()]: no nodes, no tags, the
    two derived flags false and the box empty. *)
Definition new_Way : Way :=
  {| Nodes := []; Tags := ∅; Closed := false; Clockwise := false;
     BBox := BBoxi.Empty |}.

Inductive Type_t : Type := MemberNODE | MemberWAY | MemberRELATION.

Record Member : Type := { Type_ : Type_t; Ref : Z; Role : string }.

Record Relation : Type := { Members : list Member }.

(** Modelled from the spec: the constructor [Relation()]: no members. *)
Definition new_Relation : Relation := {| Members := [] |}.

(** [std::map::insert]: an existing entry is kept. *)
Definition map_insert {K V} `{Countable K} (k : K) (v : V) (m : gmap K V)
  : gmap K V :=
  match m !! k with
  | Some _ => m
  | None => <[k := v]> m
  end.

(** ** ParseTag *)

Fixpoint ParseTag_loop (atts : list (string * string)) (key value : string)
  : string * string :=
  match atts with
  | [] => (key, value)
  | (a, v) :: rest =>
      if String.eqb a "k" then ParseTag_loop rest v value
      else if String.eqb a "v" then ParseTag_loop rest key v
      else ParseTag_loop rest key value
  end.

Definition ParseTag (map : gmap string string) (atts : list (string * string))
  : gmap string string :=
  let '(key, value) := ParseTag_loop atts "" "" in
  map_insert key value map.

(** ** ParseBounds and ParseBound *)

Definition incorrect_bbox : exception := ParsingException "incorrect bounding box".
Definition bad_bbox_format : exception := ParsingException "bad bbox format".

Fixpoint ParseBounds_loop (atts : list (string * string)) (bbox : BBoxi)
  : result BBoxi :=
  match atts with
  | [] => Val bbox
  | (a, v) :: rest =>
      if String.eqb a "minlat" then
        rbind (ParseCoord v) (fun c => ParseBounds_loop rest (set_bottom c bbox))
      else if String.eqb a "maxlat" then
        rbind (ParseCoord v) (fun c => ParseBounds_loop rest (set_top c bbox))
      else if String.eqb a "minlon" then
        rbind (ParseCoord v) (fun c => ParseBounds_loop rest (set_left c bbox))
      else if String.eqb a "maxlon" then
        rbind (ParseCoord v) (fun c => ParseBounds_loop rest (set_right c bbox))
      else ParseBounds_loop rest bbox
  end.

Definition ParseBounds (atts : list (string * string)) : result BBoxi :=
  rbind (ParseBounds_loop atts BBoxi.Empty) (fun bbox =>
    if BBoxi.IsEmpty bbox then Raise incorrect_bbox else Val bbox).

(** [s.find(',', pos)] *)
Definition find_comma (s : string) (pos : nat) : option nat :=
  String.index pos "," s.

(** [s.substr(pos, n)] and [s.substr(pos)] for [pos <= s.size()] *)
Definition substr (s : string) (pos n : nat) : string := String.substring pos n s.
Definition substr_from (s : string) (pos : nat) : string :=
  String.substring pos (String.length s - pos) s.

Definition parse_box (s : string) (bbox : BBoxi) : result BBoxi :=
  match find_comma s 0 with
  | None => Raise bad_bbox_format
  | Some cpos1 =>
  match find_comma s (cpos1 + 1) with
  | None => Raise bad_bbox_format
  | Some cpos2 =>
  match find_comma s (cpos2 + 1) with
  | None => Raise bad_bbox_format
  | Some cpos3 =>
      rbind (ParseCoord (substr s 0 cpos1)) (fun b =>
      rbind (ParseCoord (substr s (cpos1 + 1) (cpos2 - cpos1 - 1))) (fun l =>
      rbind (ParseCoord (substr s (cpos2 + 1) (cpos3 - cpos2 - 1))) (fun t =>
      rbind (ParseCoord (substr_from s (cpos3 + 1))) (fun r =>
        Val (set_right r (set_top t (set_left l (set_bottom b bbox))))))))
  end end end.

Fixpoint ParseBound_loop (atts : list (string * string)) (bbox : BBoxi)
  : result BBoxi :=
  match atts with
  | [] => Val bbox
  | (a, v) :: rest =>
      if String.eqb a "box" then
        rbind (parse_box v bbox) (fun bbox => ParseBound_loop rest bbox)
      else ParseBound_loop rest bbox
  end.

Definition ParseBound (atts : list (string * string)) : result BBoxi :=
  ParseBound_loop atts BBoxi.Empty.

(** ** The datasource object *)

Inductive Inside : Type := NONE | NODE | WAY | RELATION.

Definition Inside_eqb (a b : Inside) : bool :=
  match a, b with
  | NONE, NONE | NODE, NODE | WAY, WAY | RELATION, RELATION => true
  | _, _ => false
  end.

(** The members of [PreloadedXmlDatasource]. The three [last_*_] iterators
    are the key of the entry they point to ([None]: never assigned); an
    iterator whose entry is gone is invalid. *)
Record PreloadedXmlDatasource : Type := {
  nodes_ : gmap Z Node;
  ways_ : gmap Z Way;
  relations_ : gmap Z Relation;
  bbox_ : BBoxi;
  tag_level_ : Z;
  InsideWhich : Inside;
  last_node_ : option Z;
  last_way_ : option Z;
  last_relation_ : option Z
}.

(** The constructor initialises [bbox_] only; the other scalar members are
    given here the values [Load] assigns before parsing. *)
Definition new_PreloadedXmlDatasource : PreloadedXmlDatasource :=
  {| nodes_ := ∅; ways_ := ∅; relations_ := ∅; bbox_ := BBoxi.Empty;
     tag_level_ := 0; InsideWhich := NONE;
     last_node_ := None; last_way_ := None; last_relation_ := None |}.

Definition set_nodes (v : gmap Z Node) (s : PreloadedXmlDatasource) :=
  {| nodes_ := v; ways_ := ways_ s; relations_ := relations_ s;
     bbox_ := bbox_ s; tag_level_ := tag_level_ s;
     InsideWhich := InsideWhich s; last_node_ := last_node_ s;
     last_way_ := last_way_ s; last_relation_ := last_relation_ s |}.
Definition set_ways (v : gmap Z Way) (s : PreloadedXmlDatasource) :=
  {| nodes_ := nodes_ s; ways_ := v; relations_ := relations_ s;
     bbox_ := bbox_ s; tag_level_ := tag_level_ s;
     InsideWhich := InsideWhich s; last_node_ := last_node_ s;
     last_way_ := last_way_ s; last_relation_ := last_relation_ s |}.
Definition set_relations (v : gmap Z Relation) (s : PreloadedXmlDatasource) :=
  {| nodes_ := nodes_ s; ways_ := ways_ s; relations_ := v;
     bbox_ := bbox_ s; tag_level_ := tag_level_ s;
     InsideWhich := InsideWhich s; last_node_ := last_node_ s;
     last_way_ := last_way_ s; last_relation_ := last_relation_ s |}.
Definition set_bbox (v : BBoxi) (s : PreloadedXmlDatasource) :=
  {| nodes_ := nodes_ s; ways_ := ways_ s; relations_ := relations_ s;
     bbox_ := v; tag_level_ := tag_level_ s;
     InsideWhich := InsideWhich s; last_node_ := last_node_ s;
     last_way_ := last_way_ s; last_relation_ := last_relation_ s |}.
Definition set_tag_level (v : Z) (s : PreloadedXmlDatasource) :=
  {| nodes_ := nodes_ s; ways_ := ways_ s; relations_ := relations_ s;
     bbox_ := bbox_ s; tag_level_ := v;
     InsideWhich := InsideWhich s; last_node_ := last_node_ s;
     last_way_ := last_way_ s; last_relation_ := last_relation_ s |}.
Definition set_InsideWhich (v : Inside) (s : PreloadedXmlDatasource) :=
  {| nodes_ := nodes_ s; ways_ := ways_ s; relations_ := relations_ s;
     bbox_ := bbox_ s; tag_level_ := tag_level_ s;
     InsideWhich := v; last_node_ := last_node_ s;
     last_way_ := last_way_ s; last_relation_ := last_relation_ s |}.
Definition set_last_node (v : option Z) (s : PreloadedXmlDatasource) :=
  {| nodes_ := nodes_ s; ways_ := ways_ s; relations_ := relations_ s;
     bbox_ := bbox_ s; tag_level_ := tag_level_ s;
     InsideWhich := InsideWhich s; last_node_ := v;
     last_way_ := last_way_ s; last_relation_ := last_relation_ s |}.
Definition set_last_way (v : option Z) (s : PreloadedXmlDatasource) :=
  {| nodes_ := nodes_ s; ways_ := ways_ s; relations_ := relations_ s;
     bbox_ := bbox_ s; tag_level_ := tag_level_ s;
     InsideWhich := InsideWhich s; last_node_ := last_node_ s;
     last_way_ := v; last_relation_ := last_relation_ s |}.
Definition set_last_relation (v : option Z) (s : PreloadedXmlDatasource) :=
  {| nodes_ := nodes_ s; ways_ := ways_ s; relations_ := relations_ s;
     bbox_ := bbox_ s; tag_level_ := tag_level_ s;
     InsideWhich := InsideWhich s; last_node_ := last_node_ s;
     last_way_ := last_way_ s; last_relation_ := v |}.

Definition set_Nodes (v : list Z) (w : Way) : Way :=
  {| Nodes := v; Tags := Tags w; Closed := Closed w;
     Clockwise := Clockwise w; BBox := BBox w |}.
Definition set_Tags (v : gmap string string) (w : Way) : Way :=
  {| Nodes := Nodes w; Tags := v; Closed := Closed w;
     Clockwise := Clockwise w; BBox := BBox w |}.
Definition set_Closed (v : bool) (w : Way) : Way :=
  {| Nodes := Nodes w; Tags := Tags w; Closed := v;
     Clockwise := Clockwise w; BBox := BBox w |}.
Definition set_Clockwise (v : bool) (w : Way) : Way :=
  {| Nodes := Nodes w; Tags := Tags w; Closed := Closed w;
     Clockwise := v; BBox := BBox w |}.
Definition set_BBox (v : BBoxi) (w : Way) : Way :=
  {| Nodes := Nodes w; Tags := Tags w; Closed := Closed w;
     Clockwise := Clockwise w; BBox := v |}.

(** Outcome of a member function that mutates the object. *)
Inductive outcome : Type :=
| Ok (s : PreloadedXmlDatasource)
| Throw (e : exception) (s : PreloadedXmlDatasource)
| Undefined.

(** [last_way_->first] and [last_way_->second]. *)
Definition deref_last_way (s : PreloadedXmlDatasource) : option (Z * Way) :=
  match last_way_ s with
  | Some w => match ways_ s !! w with
              | Some way => Some (w, way)
              | None => None
              end
  | None => None
  end.

Definition deref_last_relation (s : PreloadedXmlDatasource)
  : option (Z * Relation) :=
  match last_relation_ s with
  | Some r => match relations_ s !! r with
              | Some rel => Some (r, rel)
              | None => None
              end
  | None => None
  end.

(** ** StartElement *)

(** The attribute loop run for every element opened at depth 1:
    [(id, lat, lon)]. *)
Fixpoint parse_id_lat_lon (atts : list (string * string)) (id lat lon : Z)
  : result (Z * Z * Z) :=
  match atts with
  | [] => Val (id, lat, lon)
  | (a, v) :: rest =>
      if String.eqb a "id" then parse_id_lat_lon rest (strtol_int v) lat lon
      else if String.eqb a "lat" then
        rbind (ParseCoord v) (fun c => parse_id_lat_lon rest id c lon)
      else if String.eqb a "lon" then
        rbind (ParseCoord v) (fun c => parse_id_lat_lon rest id lat c)
      else parse_id_lat_lon rest id lat lon
  end.

(** The locals [ref], [role], [type] of the member branch start
    uninitialised: [None] until an attribute assigns them. *)
Fixpoint parse_member (atts : list (string * string))
    (ref : option Z) (role : option string) (type : option Type_t)
  : result (option Z * option string * option Type_t) :=
  match atts with
  | [] => Val (ref, role, type)
  | (a, v) :: rest =>
      if String.eqb a "ref" then parse_member rest (Some (strtol_int v)) role type
      else if String.eqb a "type" then
        if String.eqb v "node" then parse_member rest ref role (Some MemberNODE)
        else if String.eqb v "way" then parse_member rest ref role (Some MemberWAY)
        else if String.eqb v "relation" then
          parse_member rest ref role (Some MemberRELATION)
        else Raise (ParsingException "bad relation member role")
      else if String.eqb a "role" then parse_member rest ref (Some v) type
      else Raise (ParsingException "unexpected attribute in relation member")
  end.

(** [++tag_level_] *)
Definition enter (s : PreloadedXmlDatasource) : outcome :=
  Ok (set_tag_level (tag_level_ s + 1) s).

Definition StartElement (name : string) (atts : list (string * string))
    (s : PreloadedXmlDatasource) : outcome :=
  if (tag_level_ s =? 1) && Inside_eqb (InsideWhich s) NONE then
    match parse_id_lat_lon atts 0 0 0 with
    | Raise e => Throw e s
    | Val (id, lat, lon) =>
        if String.eqb name "node" then
          enter (set_last_node (Some id)
                  (set_nodes (map_insert id (mkNode lon lat) (nodes_ s))
                    (set_InsideWhich NODE s)))
        else if String.eqb name "way" then
          enter (set_last_way (Some id)
                  (set_ways (map_insert id new_Way (ways_ s))
                    (set_InsideWhich WAY s)))
        else if String.eqb name "relation" then
          enter (set_last_relation (Some id)
                  (set_relations (map_insert id new_Relation (relations_ s))
                    (set_InsideWhich RELATION s)))
        else if String.eqb name "bounds" then
          match ParseBounds atts with
          | Raise e => Throw e s
          | Val b => enter (set_bbox b s)
          end
        else if String.eqb name "bound" then
          match ParseBound atts with
          | Raise e => Throw e s
          | Val b => enter (set_bbox b s)
          end
        else enter s
    end
  else if (tag_level_ s =? 2) && Inside_eqb (InsideWhich s) NODE then
    if String.eqb name "tag" then enter s
    else Throw (ParsingException "unexpected tag in node") s
  else if (tag_level_ s =? 2) && Inside_eqb (InsideWhich s) WAY then
    if String.eqb name "tag" then
      match deref_last_way s with
      | None => Undefined
      | Some (w, way) =>
          enter (set_ways (<[w := set_Tags (ParseTag (Tags way) atts) way]> (ways_ s)) s)
      end
    else if String.eqb name "nd" then
      match atts with
      | [] => Undefined
      | (a, v) :: _ =>
          if negb (String.eqb a "") && String.eqb a "ref" then
            let id := strtol_int v in
            match deref_last_way s with
            | None => Undefined
            | Some (w, way) =>
                enter (set_ways (<[w := set_Nodes (Nodes way ++ [id]) way]> (ways_ s)) s)
            end
          else Throw (ParsingException "no ref attribute for nd tag") s
      end
    else Throw (ParsingException "unexpected tag in way") s
  else if (tag_level_ s =? 2) && Inside_eqb (InsideWhich s) RELATION then
    if String.eqb name "tag" then enter s
    else if String.eqb name "member" then
      match parse_member atts None None None with
      | Raise e => Throw e s
      | Val (Some ref, Some role, Some type) =>
          match deref_last_relation s with
          | None => Undefined
          | Some (r, rel) =>
              let m := {| Type_ := type; Ref := ref; Role := role |} in
              enter (set_relations
                       (<[r := {| Members := Members rel ++ [m] |}]> (relations_ s)) s)
          end
      | Val _ => Undefined
      end
    else Throw (ParsingException "unexpected tag in relation") s
  else if tag_level_ s >=? 2 then Throw (ParsingException "unexpected tag") s
  else enter s.

(** ** EndElement *)

(** ["node " << *i << " referenced by way " << last_way_->first << ...] *)
Definition node_not_found (i w : Z) : exception :=
  ParsingException
    ("node " +:+ dec i +:+ " referenced by way " +:+ dec w
       +:+ " was not found in this dump").

(** The summand added to [area]; both products are formed in [osmlong_t]. *)
Definition cross (prev cur : Node) : Z :=
  wrap64 (wrap64 (x (Pos prev) * y (Pos cur)) - wrap64 (x (Pos cur) * y (Pos prev))).

(** The loop of the closed branch over the nodes still to visit. [prev] is
    [None] exactly at the first node ([i == begin()]); [area] is the 64-bit
    accumulator and [bbox] the way's box, updated in place. A missing node
    leaves the box as it stands at the throw. *)
Fixpoint winding_loop (nodes : gmap Z Node) (w : Z) (l : list Z)
    (prev : option Node) (area : Z) (bbox : BBoxi) : BBoxi * result Z :=
  match l with
  | [] => (bbox, Val area)
  | i :: rest =>
      match nodes !! i with
      | None => (bbox, Raise (node_not_found i w))
      | Some cur =>
          let area :=
            match prev with
            | Some p => wrap64 (area + cross p cur)
            | None => area
            end in
          winding_loop nodes w rest (Some cur) area (BBoxi.Include (Pos cur) bbox)
      end
  end.

(** The loop of the branch for ways that are not closed. *)
Fixpoint bbox_loop (nodes : gmap Z Node) (w : Z) (l : list Z) (bbox : BBoxi)
  : BBoxi * result unit :=
  match l with
  | [] => (bbox, Val tt)
  | i :: rest =>
      match nodes !! i with
      | None => (bbox, Raise (node_not_found i w))
      | Some cur => bbox_loop nodes w rest (BBoxi.Include (Pos cur) bbox)
      end
  end.

(** [InsideWhich = NONE; --tag_level_;] *)
Definition leave_container (s : PreloadedXmlDatasource) : outcome :=
  Ok (set_tag_level (tag_level_ s - 1) (set_InsideWhich NONE s)).

Definition store_way (w : Z) (way : Way) (s : PreloadedXmlDatasource)
  : PreloadedXmlDatasource :=
  set_ways (<[w := way]> (ways_ s)) s.

Definition EndElement (name : string) (s : PreloadedXmlDatasource) : outcome :=
  if tag_level_ s =? 2 then
    match InsideWhich s with
    | WAY =>
        match deref_last_way s with
        | None => Undefined
        | Some (w, way) =>
            match Nodes way with
            | [] => Undefined
            | front :: _ =>
                if front =? List.last (Nodes way) front then
                  let way := set_Closed true way in
                  match winding_loop (nodes_ s) w (Nodes way) None 0 (BBox way) with
                  | (bbox, Raise e) => Throw e (store_way w (set_BBox bbox way) s)
                  | (bbox, Val area) =>
                      leave_container
                        (store_way w (set_Clockwise (area <? 0) (set_BBox bbox way)) s)
                  end
                else
                  match bbox_loop (nodes_ s) w (Nodes way) (BBox way) with
                  | (bbox, Raise e) => Throw e (store_way w (set_BBox bbox way) s)
                  | (bbox, Val _) => leave_container (store_way w (set_BBox bbox way) s)
                  end
            end
        end
    | _ => leave_container s
    end
  else Ok (set_tag_level (tag_level_ s - 1) s).

(** ** Load, Clear and the lookups *)

Record position : Type := { line : Z; column : Z }.

Inductive sax_event : Type :=
| StartTag (name : string) (atts : list (string * string))
| EndTag (name : string).

(** What the read / [XML_Parse] loop delivers to the handlers, in order:
    element events with the tokenizer's position, then the end of the
    stream, a tokenizer error or a read error. *)
Inductive feed : Type :=
| Event (pos : position) (ev : sax_event) (rest : feed)
| Eof
| XmlError (pos : position) (msg : string)
| ReadError.

(** What [Load] meets when it opens its input and creates the parser. *)
Inductive source : Type :=
| CannotOpen
| NoParser
| Opened (f : feed).

Definition dispatch (ev : sax_event) (s : PreloadedXmlDatasource) : outcome :=
  match ev with
  | StartTag name atts => StartElement name atts s
  | EndTag name => EndElement name s
  end.

(** The message of the [verbose] exception [Load] throws instead. *)
Definition verbose (what : string) (pos : position) : exception :=
  ParsingException
    ("input parsing error: " +:+ what +:+ " at line " +:+ dec (line pos)
       +:+ " pos " +:+ dec (column pos)).

Fixpoint parse (f : feed) (s : PreloadedXmlDatasource) : outcome :=
  match f with
  | Event pos ev rest =>
      match dispatch ev s with
      | Ok s => parse rest s
      | Throw (ParsingException what) s => Throw (verbose what pos) s
      | Throw e s => Throw e s
      | Undefined => Undefined
      end
  | Eof => Ok s
  | XmlError pos msg => Throw (verbose msg pos) s
  | ReadError => Throw (SystemError "input read error") s
  end.

(** The postprocessing loop over [nodes_]; inclusion of points commutes
    (lemma [Include_comm]), so the iteration order does not matter. *)
Definition include_all (nodes : gmap Z Node) (bbox : BBoxi) : BBoxi :=
  foldr (fun kn b => BBoxi.Include (Pos kn.2) b) bbox (map_to_list nodes).

Definition postprocess (s : PreloadedXmlDatasource) : PreloadedXmlDatasource :=
  if BBoxi.IsEmpty (bbox_ s) then set_bbox (include_all (nodes_ s) (bbox_ s)) s
  else s.

Definition Load (src : source) (s : PreloadedXmlDatasource) : outcome :=
  let s := set_bbox BBoxi.Empty s in
  match src with
  | CannotOpen => Throw (SystemError "cannot open input file") s
  | NoParser => Throw (Exception "cannot create XML parser") s
  | Opened f =>
      match parse f (set_tag_level 0 (set_InsideWhich NONE s)) with
      | Ok s => Ok (postprocess s)
      | other => other
      end
  end.

Definition Clear (s : PreloadedXmlDatasource) : PreloadedXmlDatasource :=
  set_relations ∅ (set_ways ∅ (set_nodes ∅ s)).

Definition GetBBox (s : PreloadedXmlDatasource) : BBoxi := bbox_ s.

Definition GetNode (id : Z) (s : PreloadedXmlDatasource) : result Node :=
  match nodes_ s !! id with
  | Some n => Val n
  | None => Raise (DataException "node not found")
  end.

Definition GetWay (id : Z) (s : PreloadedXmlDatasource) : result Way :=
  match ways_ s !! id with
  | Some w => Val w
  | None => Raise (DataException "way not found")
  end.

Definition GetRelation (id : Z) (s : PreloadedXmlDatasource) : result Relation :=
  match relations_ s !! id with
  | Some r => Val r
  | None => Raise (DataException "relation not found")
  end.

(** ** Reference notions used in the statements *)

(** The shoelace sum over consecutive positions, in unbounded integers:
    Σ (x_i·y_{i+1} − x_{i+1}·y_i). *)
Fixpoint shoelace (ps : list Vector2i) : Z :=
  match ps with
  | p :: (q :: _) as rest => (x p * y q - x q * y p) + shoelace rest
  | _ => 0
  end.

(** The positions of the referenced nodes, when every reference resolves. *)
Definition resolve (nodes : gmap Z Node) (l : list Z) : option (list Vector2i) :=
  mapM (fun i => Pos <$> nodes !! i) l.

(** The first node id of [l] that the node map lacks. *)
Fixpoint first_missing (nodes : gmap Z Node) (l : list Z) : option Z :=
  match l with
  | [] => None
  | i :: rest =>
      match nodes !! i with
      | None => Some i
      | Some _ => first_missing nodes rest
      end
  end.

(** A feed made of the given events, one per line, ending normally. *)
Fixpoint feed_from (n : Z) (evs : list sax_event) : feed :=
  match evs with
  | [] => Eof
  | ev :: rest => Event {| line := n; column := 1 |} ev (feed_from (n + 1) rest)
  end.
Definition feed_of (evs : list sax_event) : feed := feed_from 1 evs.

(** [<node id=.. lat=.. lon=..></node>], [<nd ref=..></nd>], [<tag k=.. v=..></tag>] *)
Definition node_element (id lat lon : string) : list sax_event :=
  [StartTag "node" [("id", id); ("lat", lat); ("lon", lon)]; EndTag "node"].
Definition nd_element (ref : string) : list sax_event :=
  [StartTag "nd" [("ref", ref)]; EndTag "nd"].
Definition tag_element (kv : string * string) : list sax_event :=
  [StartTag "tag" [("k", kv.1); ("v", kv.2)]; EndTag "tag"].

(** [<way id=..> <nd ref=..></nd> ... </way>] *)
Definition way_element (id : string) (refs : list string) : list sax_event :=
  StartTag "way" [("id", id)] :: concat (map nd_element refs) ++ [EndTag "way"].

(** [<osm> ... </osm>] *)
Definition osm_document (body : list sax_event) : feed :=
  feed_of (StartTag "osm" [] :: body ++ [EndTag "osm"]).

(** The rectangle covering the whole map, listed counter-clockwise with Y
    northward: (-180,-90), (180,-90), (180,90), (-180,90) and back. *)
Definition world_ring : feed :=
  osm_document
    (node_element "1" "-90" "-180" ++ node_element "2" "-90" "180"
     ++ node_element "3" "90" "180" ++ node_element "4" "90" "-180"
     ++ way_element "1" ["1"; "2"; "3"; "4"; "1"]).

(** The square of the spec's winding example and its reverse traversal. *)
Definition square : feed :=
  osm_document
    (node_element "1" "0" "0" ++ node_element "2" "0" "10"
     ++ node_element "3" "10" "10" ++ node_element "4" "10" "0"
     ++ way_element "1" ["1"; "2"; "3"; "4"; "1"]).
Definition square_reversed : feed :=
  osm_document
    (node_element "1" "0" "0" ++ node_element "2" "0" "10"
     ++ node_element "3" "10" "10" ++ node_element "4" "10" "0"
     ++ way_element "1" ["1"; "4"; "3"; "2"; "1"]).

(** The value the digits of [ds] denote when read after [acc]. *)
Fixpoint digits_value (ds : string) (acc : Z) : Z :=
  match ds with
  | EmptyString => acc
  | String c rest => digits_value rest (acc * 10 + digit_val c)
  end.

Fixpoint all_digits (ds : string) : bool :=
  match ds with
  | EmptyString => true
  | String c rest => is_digit c && all_digits rest
  end.

Fixpoint has_dot (s : string) : bool :=
  match s with
  | EmptyString => false
  | String c rest => Ascii.eqb c "." || has_dot rest
  end.

(** The value of the first pair with key [k]. *)
Fixpoint first_value (k : string) (kvs : list (string * string)) : option string :=
  match kvs with
  | [] => None
  | (k', v) :: rest => if String.eqb k' k then Some v else first_value k rest
  end.

(** The handlers applied to a list of events, stopping at the first failure. *)
Fixpoint run (evs : list sax_event) (s : PreloadedXmlDatasource) : outcome :=
  match evs with
  | [] => Ok s
  | ev :: rest =>
      match dispatch ev s with
      | Ok s => run rest s
      | other => other
      end
  end.

(** The union of a list of positions: the fold of point inclusion from the
    empty box. *)
Definition union_of (ps : list Vector2i) : BBoxi :=
  foldr BBoxi.Include BBoxi.Empty ps.





(** The accumulator of the closed branch run on positions alone: what
    [winding_loop] computes when every reference resolves. *)
Fixpoint area_acc (prev : option Vector2i) (area : Z) (ps : list Vector2i) : Z :=
  match ps with
  | [] => area
  | p :: rest =>
      let area :=
        match prev with
        | Some q => wrap64 (area + cross {| Pos := q |} {| Pos := p |})
        | None => area
        end in
      area_acc (Some p) area rest
  end.

Definition in_int_pos (p : Vector2i) : Prop := in_int (x p) /\ in_int (y p).

(** The closure examples of the specification: three nodes and a way over
    the given references. *)
Definition three_nodes_and_way (refs : list string) : feed :=
  osm_document
    (node_element "1" "0" "0" ++ node_element "2" "0" "1"
     ++ node_element "3" "1" "1" ++ way_element "7" refs).

(** A way without any nd child, and a relation whose member lacks the role
    attribute. *)
Definition empty_way : feed := osm_document (way_element "7" []).
Definition member_without_role : feed :=
  osm_document
    [StartTag "relation" [("id", "9")];
     StartTag "member" [("type", "node"); ("ref", "1")]; EndTag "member";
     EndTag "relation"].

(** The value of a member's [type] attribute. *)
Definition type_name (t : Type_t) : string :=
  match t with
  | MemberNODE => "node"
  | MemberWAY => "way"
  | MemberRELATION => "relation"
  end.

(** The object after [<osm><way id="7">] and after [<osm><relation id="9">]
    on a fresh datasource. *)
Definition inside_way_7 : PreloadedXmlDatasource :=
  set_tag_level 2
    (set_last_way (Some 7)
      (set_ways {[ 7 := new_Way ]}
        (set_InsideWhich WAY new_PreloadedXmlDatasource))).
Definition inside_relation_9 : PreloadedXmlDatasource :=
  set_tag_level 2
    (set_last_relation (Some 9)
      (set_relations {[ 9 := new_Relation ]}
        (set_InsideWhich RELATION new_PreloadedXmlDatasource))).

(** ** GetWays *)

(** The order in which [std::map] iterates over its entries: ascending key. *)
Definition key_le (a b : Z * Way) : Prop := a.1 <= b.1.

#[global] Instance key_le_dec a b : Decision (key_le a b) := Z_le_dec a.1 b.1.

Definition ways_in_order (ways : gmap Z Way) : list (Z * Way) :=
  merge_sort key_le (map_to_list ways).

Section GetWays.

(** [BBoxi::Intersects] is declared in a header that is not among the source
    files; [GetWays] is modelled for any such test. *)
Variable Intersects : BBoxi -> BBoxi -> bool.

(** The loop of [GetWays] over the entries still to visit. *)
Fixpoint GetWays_loop (l : list (Z * Way)) (bbox : BBoxi) (out : list Way)
  : list Way :=
  match l with
  | [] => out
  | (_, way) :: rest =>
      GetWays_loop rest bbox
        (if Intersects (BBox way) bbox then out ++ [way] else out)
  end.

(** [out] is passed by reference; the result is the vector on return. *)
Definition GetWays (out : list Way) (bbox : BBoxi) (s : PreloadedXmlDatasource)
  : list Way :=
  GetWays_loop (ways_in_order (ways_ s)) bbox out.

End GetWays.

(** ** Further notions used in the statements *)

(** No attribute of the list has the given name. *)
Definition no_attribute (name : string) (atts : list (string * string)) : bool :=
  forallb (fun a => negb (String.eqb a.1 name)) atts.

(** The number of commas of [s] at positions [n] and above. *)
Fixpoint commas_from (s : string) (n : nat) : nat :=
  match s, n with
  | EmptyString, _ => O
  | String c rest, O => (if Ascii.eqb c "," then 1 else 0) + commas_from rest O
  | String c rest, S n => commas_from rest n
  end.

Definition no_comma (s : string) : bool := Nat.eqb (commas_from s 0) 0.

(** [<member type=.. ref=.. role=..></member>] *)
Definition member_element (m : string * string * string) : list sax_event :=
  [StartTag "member" [("type", m.1.1); ("ref", m.1.2); ("role", m.2)];
   EndTag "member"].

(** The member a well-formed member element denotes. *)
Definition member_of (m : Type_t * string * string) : Member :=
  {| Type_ := m.1.1; Ref := strtol_int m.1.2; Role := m.2 |}.

(** The iterator of the container being filled points to a stored entry. *)
Definition iterators_valid (s : PreloadedXmlDatasource) : bool :=
  match InsideWhich s with
  | WAY => match deref_last_way s with Some _ => true | None => false end
  | RELATION => match deref_last_relation s with Some _ => true | None => false end
  | _ => true
  end.



(** The value of the last attribute called [name], if there is one. *)
Fixpoint last_attribute (name : string) (atts : list (string * string))
  : option string :=
  match atts with
  | [] => None
  | (a, v) :: rest =>
      match last_attribute name rest with
      | Some u => Some u
      | None => if String.eqb a name then Some v else None
      end
  end.


(** The object after [<osm><node id="5" lat="2" lon="1"></node>
    <way id="7"><nd ref="5"></nd>] on a fresh datasource, and the same with
    the references 5, 6, 5 to two nodes. *)
Definition closing_way_7 : PreloadedXmlDatasource :=
  set_last_node (Some 5)
    (set_nodes {[ 5 := mkNode 10000000 20000000 ]}
      (store_way 7 (set_Nodes [5] new_Way) inside_way_7)).
Definition closing_ring_7 : PreloadedXmlDatasource :=
  set_last_node (Some 6)
    (set_nodes (<[ 6 := mkNode 30000000 40000000 ]> {[ 5 := mkNode 10000000 20000000 ]})
      (store_way 7 (set_Nodes [5; 6; 5] new_Way) inside_way_7)).

(** * Properties *)

Example ParseCoord_ex1 : ParseCoord "45.1234567" = Val 451234567.
Proof. reflexivity. Qed.
Example ParseCoord_ex2 : ParseCoord "-0.5" = Val (-5000000).
Proof. reflexivity. Qed.
Example ParseCoord_ex3 : ParseCoord "1.123456789" = Val 11234567.
Proof. reflexivity. Qed.
Example ParseCoord_ex4 : ParseCoord "12.34.5" = Raise multiple_dots.
Proof. reflexivity. Qed.

(** ** Characters and digits *)

Lemma append_cons c (s t : string) : String c s +:+ t = String c (s +:+ t).
Proof. reflexivity. Qed.

Lemma append_nil (t : string) : "" +:+ t = t.
Proof. reflexivity. Qed.

Lemma append_assoc (s t u : string) : (s +:+ t) +:+ u = s +:+ (t +:+ u).
Proof.
  induction s as [|c s IH]; [done|]. by rewrite !append_cons, IH.
Qed.

Lemma is_digit_code c : is_digit c = true <-> 48 <= code c <= 57.
Proof. unfold is_digit. rewrite andb_true_iff, !Z.leb_le. tauto. Qed.

Lemma digit_val_range c : is_digit c = true -> 0 <= digit_val c <= 9.
Proof. rewrite is_digit_code. unfold digit_val. lia. Qed.

Lemma is_digit_not_dash c : is_digit c = true -> Ascii.eqb c "-" = false.
Proof.
  intros Hd. destruct (Ascii.eqb_spec c "-") as [->|]; [|done].
  discriminate Hd.
Qed.

Lemma is_digit_not_plus c : is_digit c = true -> Ascii.eqb c "+" = false.
Proof.
  intros Hd. destruct (Ascii.eqb_spec c "+") as [->|]; [|done].
  discriminate Hd.
Qed.

Lemma is_digit_not_dot c : is_digit c = true -> Ascii.eqb c "." = false.
Proof.
  intros Hd. destruct (Ascii.eqb_spec c ".") as [->|]; [|done].
  discriminate Hd.
Qed.

Lemma is_digit_not_space c : is_digit c = true -> is_space c = false.
Proof.
  rewrite is_digit_code. unfold is_space. intros H.
  apply orb_false_iff. split; [apply Z.eqb_neq; lia|].
  apply andb_false_iff. right. apply Z.leb_gt. lia.
Qed.

Lemma digits_value_ge ds acc :
  all_digits ds = true -> 0 <= acc -> acc <= digits_value ds acc.
Proof.
  revert acc. induction ds as [|c ds IH]; simpl; intros acc Hd Hacc; [lia|].
  apply andb_true_iff in Hd as [Hc Hds].
  pose proof (digit_val_range c Hc).
  specialize (IH (acc * 10 + digit_val c) Hds). lia.
Qed.

Lemma digits_value_shift ds acc :
  digits_value ds acc
  = acc * 10 ^ Z.of_nat (String.length ds) + digits_value ds 0.
Proof.
  revert acc. induction ds as [|c ds IH]; intros acc.
  - simpl. lia.
  - cbn [digits_value String.length]. rewrite IH, (IH (0 * 10 + digit_val c)).
    rewrite Nat2Z.inj_succ, Z.pow_succ_r by lia. ring.
Qed.

(** ** The coordinate codec *)

Lemma pad_fraction_pow value fracdig :
  0 <= fracdig <= 7 -> pad_fraction value fracdig = value * 10 ^ (7 - fracdig).
Proof.
  intros H. unfold pad_fraction.
  rewrite <- (Z2Nat.id (7 - fracdig)) at 2 by lia.
  induction (Z.to_nat (7 - fracdig)) as [|n IH].
  - simpl. lia.
  - rewrite Nat2Z.inj_succ, Z.pow_succ_r by lia. simpl. rewrite IH. ring.
Qed.

(** The digits before the dot: rejected as soon as they pass 180. *)
Lemma ParseCoord_loop_integer ds rest value :
  all_digits ds = true -> 0 <= value <= 180 ->
  ParseCoord_loop (ds +:+ rest) value 0 0
  = if 180 <? digits_value ds value then Raise too_large
    else ParseCoord_loop rest (digits_value ds value) 0 0.
Proof.
  revert value. induction ds as [|c ds IH]; intros value Hd Hv.
  - simpl. destruct (Z.ltb_spec 180 value); [lia|done].
  - cbn [all_digits] in Hd. apply andb_true_iff in Hd as [Hc Hds].
    pose proof (digit_val_range c Hc) as Hr.
    rewrite append_cons. cbn [ParseCoord_loop digits_value]. rewrite Hc.
    change (0 =? 0) with true. cbn [andb negb].
    destruct (Z.gtb_spec (value * 10 + digit_val c) 180) as [Hgt|Hle].
    + pose proof (digits_value_ge ds (value * 10 + digit_val c) Hds).
      destruct (Z.ltb_spec 180 (digits_value ds (value * 10 + digit_val c)));
        [done|lia].
    + apply IH; [done|lia].
Qed.

(** At most seven digits after the dot: all of them are read. *)
Lemma ParseCoord_loop_fraction fs value fracdig :
  all_digits fs = true -> 0 <= fracdig ->
  fracdig + Z.of_nat (String.length fs) <= 7 ->
  ParseCoord_loop fs value fracdig 1
  = Val (digits_value fs value, fracdig + Z.of_nat (String.length fs), 1).
Proof.
  revert value fracdig. induction fs as [|c fs IH]; intros value fracdig Hd Hf Hlen.
  - simpl. by rewrite Z.add_0_r.
  - cbn [all_digits] in Hd. apply andb_true_iff in Hd as [Hc Hds].
    cbn [String.length] in Hlen |- *. rewrite Nat2Z.inj_succ in Hlen |- *.
    cbn [ParseCoord_loop digits_value]. rewrite Hc.
    change (1 =? 0) with false. cbn [andb negb].
    destruct (Z.eqb_spec (fracdig + 1) 7) as [H7|H7].
    + destruct fs; [|cbn [String.length] in Hlen; lia].
      reflexivity.
    + rewrite IH by (done || lia).
      by replace (fracdig + 1 + Z.of_nat (String.length fs))
        with (fracdig + Z.succ (Z.of_nat (String.length fs))) by lia.
Qed.

(** All failures of the scanning loop are parsing errors, and [haddot] never
    decreases. *)
Lemma ParseCoord_loop_haddot s value fracdig haddot :
  match ParseCoord_loop s value fracdig haddot with
  | Val (_, _, haddot') => haddot <= haddot'
  | Raise e => exists msg, e = ParsingException msg
  end.
Proof.
  revert value fracdig haddot.
  induction s as [|c s IH]; intros value fracdig haddot; cbn [ParseCoord_loop].
  - lia.
  - destruct (is_digit c).
    + destruct ((haddot =? 0) && (value * 10 + digit_val c >? 180));
        [by eexists|].
      destruct (negb (haddot =? 0)); [|apply IH].
      destruct (fracdig + 1 =? 7); [lia|apply IH].
    + destruct (Ascii.eqb c ".").
      * specialize (IH value fracdig (haddot + 1)).
        destruct (ParseCoord_loop s value fracdig (haddot + 1)) as [[[? ?] ?]|];
          [lia|done].
      * by eexists.
Qed.

(** A prefix without a dot is skipped or fails. *)
Lemma ParseCoord_loop_no_dot a rest value fracdig :
  has_dot a = false ->
  is_parsing_error (ParseCoord_loop (a +:+ rest) value fracdig 0)
  \/ exists value',
       ParseCoord_loop (a +:+ rest) value fracdig 0
       = ParseCoord_loop rest value' fracdig 0.
Proof.
  revert value. induction a as [|c a IH]; intros value Hdot.
  - right. by exists value.
  - cbn [has_dot] in Hdot. apply orb_false_iff in Hdot as [Hc Ha].
    rewrite append_cons. cbn [ParseCoord_loop]. rewrite Hc.
    change (0 =? 0) with true. cbn [andb negb].
    destruct (is_digit c); [|by left].
    destruct (value * 10 + digit_val c >? 180); [by left|].
    by apply IH.
Qed.

(** Fewer than seven characters after the first dot never reach the
    [break]. *)
Lemma ParseCoord_loop_short b rest value fracdig haddot :
  1 <= haddot -> fracdig + Z.of_nat (String.length b) < 7 ->
  is_parsing_error (ParseCoord_loop (b +:+ rest) value fracdig haddot)
  \/ exists value' fracdig' haddot',
       haddot <= haddot' /\
       ParseCoord_loop (b +:+ rest) value fracdig haddot
       = ParseCoord_loop rest value' fracdig' haddot'.
Proof.
  revert value fracdig haddot.
  induction b as [|c b IH]; intros value fracdig haddot Hh Hlen.
  - right. exists value, fracdig, haddot. split; [lia|done].
  - cbn [String.length] in Hlen. rewrite Nat2Z.inj_succ in Hlen.
    rewrite append_cons. cbn [ParseCoord_loop].
    destruct (Z.eqb_spec haddot 0) as [?|_]; [lia|]. cbn [andb negb].
    destruct (is_digit c).
    + destruct (Z.eqb_spec (fracdig + 1) 7) as [?|_]; [lia|].
      apply IH; lia.
    + destruct (Ascii.eqb c "."); [|by left].
      destruct (IH value fracdig (haddot + 1)) as [?|(v & f & h & Hle & Heq)];
        [lia|lia|by left|].
      right. exists v, f, h. split; [lia|done].
Qed.

Lemma ParseCoord_unsigned s :
  match s with String c _ => Ascii.eqb c "-" = false | EmptyString => True end ->
  ParseCoord s = ParseCoord_from false s.
Proof. destruct s as [|c s]; [done|]. simpl. by intros ->. Qed.

Lemma ParseCoord_from_wellformed neg ds fs :
  all_digits ds = true -> all_digits fs = true ->
  (String.length fs <= 7)%nat ->
  ParseCoord_from neg (ds +:+ "." +:+ fs)
  = if 180 <? digits_value ds 0 then Raise too_large
    else
      let v := digits_value ds 0 * 10 ^ 7
               + digits_value fs 0 * 10 ^ (7 - Z.of_nat (String.length fs)) in
      Val (if neg then - v else v).
Proof.
  intros Hds Hfs Hlen. unfold ParseCoord_from.
  rewrite ParseCoord_loop_integer by (done || lia).
  destruct (180 <? digits_value ds 0); [done|].
  rewrite append_cons, append_nil.
  change (ParseCoord_loop (String "." fs) ?v 0 0)
    with (ParseCoord_loop fs v 0 (0 + 1)).
  rewrite ParseCoord_loop_fraction by (done || lia).
  cbn [rbind]. change (0 + 1 >? 1) with false. cbv iota.
  rewrite pad_fraction_pow by lia.
  rewrite (digits_value_shift fs (digits_value ds 0)).
  set (n := Z.of_nat (String.length fs)).
  assert (E : 10 ^ 7 = 10 ^ n * 10 ^ (7 - (0 + n))).
  { rewrite <- Z.pow_add_r by lia. f_equal. lia. }
  cbv zeta. rewrite E. replace (7 - n) with (7 - (0 + n)) by lia.
  change (1 >? 1) with false. cbv iota.
  f_equal. destruct neg; ring.
Qed.

(** C4 (as amended). The 180 bound is checked on the integer part only, digit
    by digit: on an input [-]digits.digits with at most seven fractional
    digits the codec fails with the parsing error "value too large" exactly
    when the integer part exceeds 180, and otherwise returns the value scaled
    by 10^7. In particular "180.0000001" is accepted and yields 1800000001,
    while "181.0" fails. *)
Theorem ParseCoord_integer_part_bound (neg : bool) (ds fs : string) :
  all_digits ds = true -> all_digits fs = true ->
  (String.length fs <= 7)%nat ->
  ParseCoord ((if neg then "-" else "") +:+ ds +:+ "." +:+ fs)
  = if 180 <? digits_value ds 0 then Raise too_large
    else
      let v := digits_value ds 0 * 10 ^ 7
               + digits_value fs 0 * 10 ^ (7 - Z.of_nat (String.length fs)) in
      Val (if neg then - v else v).
Proof.
  intros Hds Hfs Hlen. destruct neg.
  - rewrite append_cons, append_nil.
    change (ParseCoord (String "-" ?s)) with (ParseCoord_from true s).
    by apply ParseCoord_from_wellformed.
  - rewrite append_nil, ParseCoord_unsigned.
    + by apply ParseCoord_from_wellformed.
    + destruct ds as [|c ds]; [done|].
      rewrite append_cons. cbn [all_digits] in Hds.
      apply andb_true_iff in Hds as [Hc _]. by apply is_digit_not_dash.
Qed.

Lemma ParseCoord_integer_part_bound_witness :
  ParseCoord "180.0000001" = Val 1800000001
  /\ ParseCoord "-181.0" = Raise too_large.
Proof.
  split.
  - apply (ParseCoord_integer_part_bound false "180" "0000001");
      [reflexivity | reflexivity | simpl; lia].
  - apply (ParseCoord_integer_part_bound true "181" "0");
      [reflexivity | reflexivity | simpl; lia].
Defined.

(** C4 (as stated) fails: "180.0000001" is not rejected. *)
Lemma ParseCoord_180_0000001_accepted :
  ParseCoord "180.0000001" = Val 1800000001
  /\ ~ is_parsing_error (ParseCoord "180.0000001").
Proof. split; [reflexivity | intros []]. Qed.

(** C7 (as amended). An input with a second dot fails with a parsing error
    whenever fewer than seven characters stand between the first dot and the
    second one; after seven fractional digits the scan stops and nothing
    that follows, a dot included, is looked at. *)
Theorem ParseCoord_second_dot (a b c : string) :
  has_dot a = false -> (String.length b < 7)%nat ->
  is_parsing_error (ParseCoord (a +:+ "." +:+ b +:+ "." +:+ c)).
Proof.
  intros Ha Hb.
  assert (Hfrom : forall neg a', has_dot a' = false ->
            is_parsing_error (ParseCoord_from neg (a' +:+ "." +:+ b +:+ "." +:+ c))).
  { intros neg a' Ha'. unfold ParseCoord_from.
    destruct (ParseCoord_loop_no_dot a' ("." +:+ b +:+ "." +:+ c) 0 0 Ha')
      as [Herr|[v ->]].
    { destruct (ParseCoord_loop _ 0 0 0) as [|[]]; done. }
    rewrite append_cons, append_nil.
    change (ParseCoord_loop (String "." ?s) v 0 0)
      with (ParseCoord_loop s v 0 (0 + 1)).
    destruct (ParseCoord_loop_short b ("." +:+ c) v 0 (0 + 1))
      as [Herr|(v' & f' & h' & Hh & ->)]; [lia|lia| |].
    { destruct (ParseCoord_loop _ v 0 (0 + 1)) as [|[]]; done. }
    rewrite append_cons, append_nil.
    assert (Hstep : ParseCoord_loop (String "." c) v' f' h'
                    = ParseCoord_loop c v' f' (h' + 1)) by reflexivity.
    rewrite Hstep.
    pose proof (ParseCoord_loop_haddot c v' f' (h' + 1)) as Hmono.
    destruct (ParseCoord_loop c v' f' (h' + 1)) as [[[v2 f2] h2]|e].
    - cbn [rbind]. destruct (Z.gtb_spec h2 1); [done|lia].
    - destruct Hmono as [msg ->]. done. }
  destruct a as [|ch a].
  - rewrite append_nil, ParseCoord_unsigned; [|done]. by apply (Hfrom false "").
  - rewrite append_cons. cbn [ParseCoord].
    destruct (Ascii.eqb ch "-").
    + cbn [has_dot] in Ha. apply orb_false_iff in Ha as [_ Ha]. by apply Hfrom.
    + rewrite <- append_cons. by apply Hfrom.
Qed.

Lemma ParseCoord_second_dot_witness : is_parsing_error (ParseCoord "12.34.5").
Proof.
  apply (ParseCoord_second_dot "12" "34" "5"); [reflexivity | simpl; lia].
Defined.

(** C7 (as stated) fails: a second dot after seven fractional digits is
    never reached. *)
Lemma ParseCoord_late_second_dot_accepted :
  has_dot "1" = false
  /\ ParseCoord "1.1234567.8" = Val 11234567
  /\ ~ is_parsing_error (ParseCoord "1.1234567.8").
Proof. split; [reflexivity|]. split; [reflexivity | intros []]. Qed.

(** ** Integers in decimal: output and strtol *)


Lemma wrap64_id z : in_long z -> wrap64 z = z.
Proof.
  unfold in_long, LONG_MIN, LONG_MAX, wrap64, wrap. intros H.
  change (2 ^ (64 - 1)) with 9223372036854775808.
  change (2 ^ 64) with 18446744073709551616.
  rewrite Z.mod_small; lia.
Qed.

Lemma clamp_long_id z : in_long z -> clamp_long z = z.
Proof. unfold in_long, clamp_long. lia. Qed.

Lemma digit_char_spec d :
  0 <= d <= 9 -> is_digit (digit_char d) = true /\ digit_val (digit_char d) = d.
Proof.
  intros H.
  assert (Hd : d = 0 \/ d = 1 \/ d = 2 \/ d = 3 \/ d = 4 \/ d = 5 \/ d = 6
               \/ d = 7 \/ d = 8 \/ d = 9) by lia.
  repeat destruct Hd as [->|Hd]; try subst d; by split.
Qed.

Lemma strtol_digits_app s t acc :
  all_digits s = true ->
  strtol_digits (s +:+ t) acc = strtol_digits t (strtol_digits s acc).
Proof.
  revert acc. induction s as [|c s IH]; intros acc Hd; [done|].
  cbn [all_digits] in Hd. apply andb_true_iff in Hd as [Hc Hs].
  rewrite append_cons. cbn [strtol_digits]. rewrite Hc. by apply IH.
Qed.

Lemma all_digits_app s t :
  all_digits s = true -> all_digits t = true -> all_digits (s +:+ t) = true.
Proof.
  induction s as [|c s IH]; intros Hs Ht; [done|].
  cbn [all_digits] in Hs. apply andb_true_iff in Hs as [Hc Hs].
  rewrite append_cons. cbn [all_digits]. rewrite Hc. by apply IH.
Qed.

Lemma dec_digits_acc fuel n acc :
  dec_digits fuel n acc = dec_digits fuel n "" +:+ acc.
Proof.
  revert n acc. induction fuel as [|fuel IH]; intros n acc; [done|].
  cbn [dec_digits]. destruct (n <? 10); [done|].
  rewrite IH, (IH _ (String _ "")).
  by rewrite append_assoc.
Qed.

(** With enough fuel the digits written read back as the number. *)
Lemma dec_digits_spec fuel n :
  0 <= n < 10 ^ Z.of_nat fuel ->
  all_digits (dec_digits fuel n "") = true
  /\ strtol_digits (dec_digits fuel n "") 0 = n.
Proof.
  revert n. induction fuel as [|fuel IH]; intros n Hn.
  - change (10 ^ Z.of_nat 0) with 1 in Hn. assert (n = 0) as -> by lia. done.
  - rewrite Nat2Z.inj_succ, Z.pow_succ_r in Hn by lia.
    cbn [dec_digits]. destruct (Z.ltb_spec n 10) as [Hlt|Hge].
    + rewrite Z.mod_small by lia.
      destruct (digit_char_spec n) as [Hd Hv]; [lia|].
      cbn [all_digits strtol_digits]. rewrite Hd, Hv. done.
    + rewrite dec_digits_acc.
      destruct (IH (n / 10)) as [Hall Hval].
      { split; [apply Z.div_pos; lia|].
        apply Z.div_lt_upper_bound; lia. }
      destruct (digit_char_spec (n mod 10)) as [Hd Hv].
      { pose proof (Z.mod_pos_bound n 10). lia. }
      split.
      * apply all_digits_app; [done|]. cbn [all_digits]. by rewrite Hd.
      * rewrite strtol_digits_app, Hval by done.
        cbn [strtol_digits]. rewrite Hd, Hv.
        pose proof (Z.div_mod n 10). lia.
Qed.

Lemma dec_fuel_enough n :
  0 <= n -> n < 10 ^ Z.of_nat (S (Z.to_nat (Z.log2 n))).
Proof.
  intros Hn. rewrite Nat2Z.inj_succ, Z2Nat.id by apply Z.log2_nonneg.
  destruct (Z.eq_dec n 0) as [->|Hne]; [done|].
  pose proof (Z.log2_spec n) as [_ Hlt]; [lia|].
  eapply Z.lt_le_trans; [exact Hlt|].
  apply Z.pow_le_mono_l. pose proof (Z.log2_nonneg n). lia.
Qed.

Lemma dec_digits_head fuel n :
  exists c rest,
    dec_digits (S fuel) n "" = String c rest.
Proof.
  cbn [dec_digits]. destruct (n <? 10); [by eexists _, _|].
  rewrite dec_digits_acc.
  destruct (dec_digits fuel (n / 10) "") as [|c r]; by eexists _, _.
Qed.

(** Reading back what the stream output wrote. *)
Lemma strtol_dec z : in_long z -> strtol (dec z) = z.
Proof.
  intros Hz. unfold dec. destruct (Z.ltb_spec z 0) as [Hneg|Hpos].
  - unfold strtol. cbn [skip_space]. change (is_space "-") with false. cbv iota.
    change (Ascii.eqb "-" "-") with true. cbv iota.
    destruct (dec_digits_spec (S (Z.to_nat (Z.log2 (- z)))) (- z)) as [_ ->].
    { split; [lia|]. apply dec_fuel_enough. lia. }
    rewrite Z.opp_involutive. by apply clamp_long_id.
  - destruct (dec_digits_spec (S (Z.to_nat (Z.log2 z))) z) as [Hall Hval].
    { split; [lia|]. by apply dec_fuel_enough. }
    destruct (dec_digits_head (Z.to_nat (Z.log2 z)) z) as (c & rest & E).
    rewrite E in Hall, Hval |- *.
    pose proof Hall as Hc. cbn [all_digits] in Hc.
    apply andb_true_iff in Hc as [Hc _].
    unfold strtol. cbn [skip_space].
    rewrite (is_digit_not_space c Hc), (is_digit_not_dash c Hc),
      (is_digit_not_plus c Hc), Hval.
    by apply clamp_long_id.
Qed.


(** ** The entity maps *)

Section map_insert.
Context {K V : Type} `{Countable K}.
Implicit Types (m : gmap K V) (k : K) (v : V).

Lemma map_insert_lookup k v m :
  map_insert k v m !! k = Some (default v (m !! k)).
Proof.
  unfold map_insert. destruct (m !! k) eqn:E; [done|].
  by rewrite lookup_insert_eq.
Qed.


Lemma map_insert_lookup_ne k k' v m :
  k <> k' -> map_insert k v m !! k' = m !! k'.
Proof.
  intros Hne. unfold map_insert. destruct (m !! k); [done|].
  by rewrite lookup_insert_ne.
Qed.

(** An entry, once stored, is never replaced by an insertion. *)
Lemma map_insert_keeps k k' v v' m :
  m !! k' = Some v' -> map_insert k v m !! k' = Some v'.
Proof.
  intros E. destruct (decide (k = k')) as [->|Hne].
  - by rewrite map_insert_lookup, E.
  - by rewrite map_insert_lookup_ne.
Qed.
End map_insert.

(** ** StartElement, case by case *)

Section top_level.
Variable s : PreloadedXmlDatasource.
Hypothesis Hlevel : tag_level_ s = 1.
Hypothesis Hnone : InsideWhich s = NONE.


Lemma StartElement_way id :
  StartElement "way" [("id", id)] s
  = enter (set_last_way (Some (strtol_int id))
            (set_ways (map_insert (strtol_int id) new_Way (ways_ s))
              (set_InsideWhich WAY s))).
Proof. unfold StartElement. by rewrite Hlevel, Hnone. Qed.

Lemma StartElement_relation id :
  StartElement "relation" [("id", id)] s
  = enter (set_last_relation (Some (strtol_int id))
            (set_relations (map_insert (strtol_int id) new_Relation (relations_ s))
              (set_InsideWhich RELATION s))).
Proof. unfold StartElement. by rewrite Hlevel, Hnone. Qed.
End top_level.

Section inside_way.
Variables (s : PreloadedXmlDatasource) (w : Z) (way : Way).
Hypothesis Hlevel : tag_level_ s = 2.
Hypothesis Hway : InsideWhich s = WAY.
Hypothesis Hlast : deref_last_way s = Some (w, way).

Lemma StartElement_nd ref :
  StartElement "nd" [("ref", ref)] s
  = enter (store_way w (set_Nodes (Nodes way ++ [strtol_int ref]) way) s).
Proof. unfold StartElement. by rewrite Hlevel, Hway, Hlast. Qed.

Lemma StartElement_tag k v :
  StartElement "tag" [("k", k); ("v", v)] s
  = enter (store_way w (set_Tags (map_insert k v (Tags way)) way) s).
Proof. unfold StartElement. by rewrite Hlevel, Hway, Hlast. Qed.
End inside_way.

Section inside_relation.
Variables (s : PreloadedXmlDatasource) (r : Z) (rel : Relation).
Hypothesis Hlevel : tag_level_ s = 2.
Hypothesis Hrel : InsideWhich s = RELATION.
Hypothesis Hlast : deref_last_relation s = Some (r, rel).

Lemma StartElement_member ty ref role :
  StartElement "member" [("type", type_name ty); ("ref", ref); ("role", role)] s
  = enter (set_relations
             (<[r := {| Members := Members rel
                          ++ [{| Type_ := ty; Ref := strtol_int ref; Role := role |}] |}]>
                (relations_ s)) s).
Proof.
  unfold StartElement. rewrite Hlevel, Hrel.
  destruct ty; cbn -[strtol_int]; by rewrite Hlast.
Qed.
End inside_relation.

(** ** Identifiers *)

(** An identifier of the 64-bit range is read as its low 32 bits. *)
Lemma strtol_int_dec_long z : in_long z -> strtol_int (dec z) = wrap32 z.
Proof. intros Hz. unfold strtol_int. by rewrite strtol_dec. Qed.


Lemma run_inside_way_7 :
  run [StartTag "osm" []; StartTag "way" [("id", "7")]] new_PreloadedXmlDatasource
  = Ok inside_way_7.
Proof. vm_compute. reflexivity. Qed.

Lemma run_inside_relation_9 :
  run [StartTag "osm" []; StartTag "relation" [("id", "9")]]
    new_PreloadedXmlDatasource
  = Ok inside_relation_9.
Proof. vm_compute. reflexivity. Qed.



(** ** End-of-way processing and missing references *)

Lemma deref_last_way_spec s w way :
  deref_last_way s = Some (w, way) <->
  last_way_ s = Some w /\ ways_ s !! w = Some way.
Proof.
  unfold deref_last_way. split.
  - destruct (last_way_ s) as [w'|]; [|done].
    destruct (ways_ s !! w') as [way'|] eqn:E; [|done].
    intros [= -> ->]. done.
  - intros [-> ->]. done.
Qed.

Lemma deref_store_way s w way' :
  last_way_ s = Some w -> deref_last_way (store_way w way' s) = Some (w, way').
Proof.
  intros Hl. apply deref_last_way_spec. split; [done|].
  cbn. by rewrite lookup_insert_eq.
Qed.

Lemma first_missing_elem nodes l i :
  i ∈ l -> nodes !! i = None ->
  exists j, first_missing nodes l = Some j /\ j ∈ l /\ nodes !! j = None.
Proof.
  induction l as [|k l IH]; intros Hin Hnone.
  - by apply elem_of_nil in Hin.
  - cbn [first_missing]. destruct (nodes !! k) eqn:Ek.
    + apply elem_of_cons in Hin as [->|Hin]; [congruence|].
      destruct (IH Hin Hnone) as (j & Hj & Hjl & Hjn).
      exists j. split; [done|]. split; [apply elem_of_cons; by right|done].
    + exists k. split; [done|]. split; [apply elem_of_cons; by left|done].
Qed.

Lemma winding_loop_missing nodes w l prev area bbox j :
  first_missing nodes l = Some j ->
  (winding_loop nodes w l prev area bbox).2 = Raise (node_not_found j w).
Proof.
  revert prev area bbox. induction l as [|k l IH]; intros prev area bbox; [done|].
  cbn [first_missing winding_loop]. destruct (nodes !! k).
  - intros Hj. by apply IH.
  - by intros [= ->].
Qed.

Lemma bbox_loop_missing nodes w l bbox j :
  first_missing nodes l = Some j ->
  (bbox_loop nodes w l bbox).2 = Raise (node_not_found j w).
Proof.
  revert bbox. induction l as [|k l IH]; intros bbox; [done|].
  cbn [first_missing bbox_loop]. destruct (nodes !! k).
  - intros Hj. by apply IH.
  - by intros [= ->].
Qed.

(** The closing tag of a way with a dangling reference: the handler throws,
    naming the first such node and the way. *)
Lemma EndElement_missing name s w way j :
  tag_level_ s = 2 -> InsideWhich s = WAY ->
  deref_last_way s = Some (w, way) ->
  first_missing (nodes_ s) (Nodes way) = Some j ->
  exists s', EndElement name s = Throw (node_not_found j w) s'.
Proof.
  intros Hl Hw Hlast Hj. unfold EndElement. rewrite Hl, Hw, Hlast.
  change (2 =? 2) with true. cbv iota.
  destruct (Nodes way) as [|front rest] eqn:En; [done|].
  destruct (front =? List.last (front :: rest) front).
  - pose proof (winding_loop_missing (nodes_ s) w (Nodes (set_Closed true way))
                  None 0 (BBox (set_Closed true way)) j) as Hloop.
    cbn [Nodes set_Closed] in Hloop. rewrite En in Hloop.
    specialize (Hloop Hj).
    destruct (winding_loop _ _ _ _ _ _) as [bbox r] eqn:E.
    change (Nodes (set_Closed true way)) with (Nodes way). rewrite En, E.
    cbn in Hloop. subst r. by eexists.
  - pose proof (bbox_loop_missing (nodes_ s) w (front :: rest) (BBox way) j Hj)
      as Hloop.
    destruct (bbox_loop _ _ _ _) as [bbox r] eqn:E.
    cbn in Hloop. subst r. by eexists.
Qed.

Lemma run_app evs1 evs2 s :
  run (evs1 ++ evs2) s
  = match run evs1 s with
    | Ok s' => run evs2 s'
    | other => other
    end.
Proof.
  revert s. induction evs1 as [|ev evs1 IH]; intros s; [done|].
  cbn [run app]. destruct (dispatch ev s); [apply IH|done|done].
Qed.

(** The nd children of a way are accepted whatever the node map holds: each
    appends its reference, and nothing else changes. *)
Lemma run_nd_elements refs s w way :
  tag_level_ s = 2 -> InsideWhich s = WAY ->
  deref_last_way s = Some (w, way) ->
  exists s',
    run (concat (map nd_element refs)) s = Ok s'
    /\ tag_level_ s' = 2 /\ InsideWhich s' = WAY /\ nodes_ s' = nodes_ s
    /\ deref_last_way s'
       = Some (w, set_Nodes (Nodes way ++ map strtol_int refs) way).
Proof.
  revert s way. induction refs as [|ref refs IH]; intros s way Hl Hw Hlast.
  - exists s. cbn. rewrite app_nil_r. by destruct way.
  - cbn [map concat nd_element app run dispatch].
    rewrite (StartElement_nd s w way Hl Hw Hlast). cbn [enter].
    apply deref_last_way_spec in Hlast as [Hlw Hways].
    set (way1 := set_Nodes (Nodes way ++ [strtol_int ref]) way).
    set (s1 := set_tag_level (tag_level_ (store_way w way1 s) + 1)
                 (store_way w way1 s)).
    assert (Hend : EndElement "nd" s1 = Ok (set_tag_level 2 (store_way w way1 s))).
    { unfold EndElement, s1. cbn [tag_level_ set_tag_level store_way set_ways].
      rewrite Hl. reflexivity. }
    rewrite Hend.
    destruct (IH (set_tag_level 2 (store_way w way1 s)) way1)
      as (s' & Hrun & Hl' & Hw' & Hn' & Hd'); [done|done| |].
    { apply deref_last_way_spec. split; [done|]. cbn. by rewrite lookup_insert_eq. }
    exists s'. split; [done|]. split; [done|]. split; [done|]. split; [done|].
    rewrite Hd'. unfold way1. cbn [Nodes set_Nodes].
    by rewrite <- app_assoc.
Qed.

(** C1 (as amended). A way that references a node id absent from the node
    map is accepted up to its closing tag (the way element and each of its
    nd children are handled without failure) and end-of-way processing then
    fails, with a ParsingException (not a DataException) whose message names
    the first missing node id and the id of the way. *)
Theorem missing_reference_fails_at_end_of_way s id refs ref :
  tag_level_ s = 1 -> InsideWhich s = NONE ->
  ref ∈ refs -> nodes_ s !! strtol_int ref = None ->
  exists s1 way1 j s2,
    run (StartTag "way" [("id", id)] :: concat (map nd_element refs)) s = Ok s1
    /\ ways_ s1 !! strtol_int id = Some way1
    /\ strtol_int ref ∈ Nodes way1
    /\ first_missing (nodes_ s1) (Nodes way1) = Some j
    /\ j ∈ Nodes way1 /\ nodes_ s1 !! j = None
    /\ EndElement "way" s1 = Throw (node_not_found j (strtol_int id)) s2
    /\ run (way_element id refs) s = Throw (node_not_found j (strtol_int id)) s2.
Proof.
  intros Hl Hn Hin Hnone.
  set (w := strtol_int id).
  set (s0 := set_tag_level 2
               (set_last_way (Some w)
                 (set_ways (map_insert w new_Way (ways_ s))
                   (set_InsideWhich WAY s)))).
  assert (Hstart : StartElement "way" [("id", id)] s = Ok s0).
  { rewrite (StartElement_way s Hl Hn). unfold enter, s0. cbn. by rewrite Hl. }
  set (way0 := default new_Way (ways_ s !! w)).
  destruct (run_nd_elements refs s0 w way0) as (s1 & Hrun & Hl1 & Hw1 & Hn1 & Hd1);
    [done|done| |].
  { apply deref_last_way_spec. split; [done|]. apply map_insert_lookup. }
  set (way1 := set_Nodes (Nodes way0 ++ map strtol_int refs) way0) in *.
  assert (Hin' : strtol_int ref ∈ Nodes way1).
  { apply elem_of_app. right. by apply (list_elem_of_fmap_2 strtol_int). }
  assert (Hnone' : nodes_ s1 !! strtol_int ref = None) by (by rewrite Hn1).
  destruct (first_missing_elem (nodes_ s1) _ _ Hin' Hnone') as (j & Hj & Hjl & Hjn).
  destruct (EndElement_missing "way" s1 w way1 j Hl1 Hw1 Hd1 Hj) as [s2 Hend].
  assert (Hrun1 : run (StartTag "way" [("id", id)] :: concat (map nd_element refs)) s
                  = Ok s1).
  { cbn [run dispatch]. by rewrite Hstart. }
  exists s1, way1, j, s2.
  split; [done|].
  split; [by apply deref_last_way_spec in Hd1 as [_ ?]|].
  do 5 (split; [done|]).
  unfold way_element. rewrite app_comm_cons, run_app, Hrun1.
  cbn [run dispatch]. by rewrite Hend.
Qed.

Lemma missing_reference_fails_at_end_of_way_witness :
  exists s1 way1 j s2,
    run (StartTag "way" [("id", "7")] :: concat (map nd_element ["5"]))
      (set_tag_level 1 new_PreloadedXmlDatasource) = Ok s1
    /\ ways_ s1 !! strtol_int "7" = Some way1
    /\ strtol_int "5" ∈ Nodes way1
    /\ first_missing (nodes_ s1) (Nodes way1) = Some j
    /\ j ∈ Nodes way1 /\ nodes_ s1 !! j = None
    /\ EndElement "way" s1 = Throw (node_not_found j (strtol_int "7")) s2
    /\ run (way_element "7" ["5"]) (set_tag_level 1 new_PreloadedXmlDatasource)
       = Throw (node_not_found j (strtol_int "7")) s2.
Proof.
  apply (missing_reference_fails_at_end_of_way
           (set_tag_level 1 new_PreloadedXmlDatasource) "7" ["5"] "5").
  - reflexivity.
  - reflexivity.
  - apply elem_of_cons. by left.
  - reflexivity.
Defined.

(** C1 (as stated) fails: the exception thrown for a dangling reference is a
    ParsingException, not a DataException. *)
Lemma missing_reference_not_DataException :
  exists s1 s2,
    run (StartTag "osm" [] :: StartTag "way" [("id", "7")] :: nd_element "5")
      new_PreloadedXmlDatasource = Ok s1
    /\ nodes_ s1 !! 5 = None
    /\ EndElement "way" s1
       = Throw (ParsingException
                  "node 5 referenced by way 7 was not found in this dump") s2
    /\ forall msg s', EndElement "way" s1 <> Throw (DataException msg) s'.
Proof.
  eexists _, _. split; [vm_compute; reflexivity|].
  split; [reflexivity|]. split; [vm_compute; reflexivity|].
  intros msg s'. vm_compute. discriminate.
Qed.

(** ** Tags of a way *)

(** Only the attributes k and v count, in whatever order and company. *)
Lemma ParseTag_kv m k v : ParseTag m [("k", k); ("v", v)] = map_insert k v m.
Proof. reflexivity. Qed.

Lemma ParseTag_vk m k v : ParseTag m [("v", v); ("k", k)] = map_insert k v m.
Proof. reflexivity. Qed.

Lemma ParseTag_other m a u k v :
  String.eqb a "k" = false -> String.eqb a "v" = false ->
  ParseTag m [(a, u); ("k", k); ("v", v)] = map_insert k v m.
Proof. intros Hk Hv. unfold ParseTag. cbn. by rewrite Hk, Hv. Qed.

Lemma EndElement_child name s :
  tag_level_ s = 3 -> EndElement name s = Ok (set_tag_level 2 s).
Proof. intros Hl. unfold EndElement. by rewrite Hl. Qed.

(** C10. Among the tag children of one way that carry the same key, the
    first decides the value stored for that key; a value the way already
    holds for the key (from an earlier element of the same id) is kept. For
    a way that has no value for [k] yet, the value after the tag elements
    [kvs] is the one of the first pair with key [k]. *)
Theorem way_tags_first_value_wins s w way (kvs : list (string * string)) k :
  tag_level_ s = 2 -> InsideWhich s = WAY ->
  deref_last_way s = Some (w, way) ->
  exists s' way',
    run (concat (map tag_element kvs)) s = Ok s'
    /\ tag_level_ s' = 2 /\ InsideWhich s' = WAY
    /\ deref_last_way s' = Some (w, way')
    /\ Tags way' !! k
       = match Tags way !! k with
         | Some v => Some v
         | None => first_value k kvs
         end.
Proof.
  revert s way. induction kvs as [|[k' v'] kvs IH]; intros s way Hl Hw Hlast.
  - exists s, way. cbn. repeat split; try done. by destruct (Tags way !! k).
  - cbn [map concat tag_element app run dispatch fst snd].
    rewrite (StartElement_tag s w way Hl Hw Hlast). cbn [enter].
    apply deref_last_way_spec in Hlast as [Hlw Hways].
    set (way1 := set_Tags (map_insert k' v' (Tags way)) way).
    rewrite EndElement_child by (cbn; lia).
    destruct (IH (set_tag_level 2
                   (set_tag_level (tag_level_ (store_way w way1 s) + 1)
                      (store_way w way1 s))) way1)
      as (s' & way' & Hrun & Hl' & Hw' & Hd' & Htags); [done|done| |].
    { apply deref_last_way_spec. split; [done|]. cbn. by rewrite lookup_insert_eq. }
    exists s', way'. do 4 (split; [done|]).
    rewrite Htags. unfold way1. cbn [Tags set_Tags first_value].
    destruct (String.eqb_spec k' k) as [->|Hne].
    + rewrite map_insert_lookup. by destruct (Tags way !! k).
    + by rewrite map_insert_lookup_ne.
Qed.

Lemma way_tags_first_value_wins_witness :
  exists s' way',
    run (concat (map tag_element
                   [("name", "A"); ("highway", "x"); ("name", "B")])) inside_way_7
    = Ok s'
    /\ tag_level_ s' = 2 /\ InsideWhich s' = WAY
    /\ deref_last_way s' = Some (7, way')
    /\ Tags way' !! "name" = Some "A".
Proof.
  apply (way_tags_first_value_wins inside_way_7 7 new_Way
           [("name", "A"); ("highway", "x"); ("name", "B")] "name");
    reflexivity.
Defined.

(** ** The dataset bounding box *)


Lemma if_ltb_min a b : (if a <? b then a else b) = Z.min a b.
Proof. destruct (Z.ltb_spec a b); lia. Qed.

Lemma if_gtb_max a b : (if a >? b then a else b) = Z.max a b.
Proof. destruct (Z.gtb_spec a b); lia. Qed.

Lemma Include_min_max p b :
  BBoxi.Include p b
  = {| left := Z.min (x p) (left b); bottom := Z.min (y p) (bottom b);
       right := Z.max (x p) (right b); top := Z.max (y p) (top b) |}.
Proof. unfold BBoxi.Include. by rewrite !if_ltb_min, !if_gtb_max. Qed.

Lemma Include_comm p q b :
  BBoxi.Include p (BBoxi.Include q b) = BBoxi.Include q (BBoxi.Include p b).
Proof. rewrite !Include_min_max. cbn. f_equal; lia. Qed.

(** The box obtained does not depend on the order in which the points are
    included, so the order in which [nodes_] is traversed is immaterial. *)
Lemma Include_order_irrelevant (ps qs : list Vector2i) b :
  ps ≡ₚ qs -> foldr BBoxi.Include b ps = foldr BBoxi.Include b qs.
Proof.
  induction 1 as [|p ps qs _ IH|p q ps|ps qs rs _ IH1 _ IH2]; cbn.
  - done.
  - by rewrite IH.
  - apply Include_comm.
  - by rewrite IH1.
Qed.


Ltac case_handler :=
  repeat match goal with
         | |- context [match ?x with _ => _ end] => destruct x eqn:?
         end.






(** C9. Clear empties the three entity maps and leaves every other member
    as it is, the dataset bounding box included; the box is set back to the
    empty sentinel by the first statement of Load, whatever the input. *)
Theorem Clear_frame s :
  Clear s
  = {| nodes_ := ∅; ways_ := ∅; relations_ := ∅;
       bbox_ := bbox_ s; tag_level_ := tag_level_ s;
       InsideWhich := InsideWhich s; last_node_ := last_node_ s;
       last_way_ := last_way_ s; last_relation_ := last_relation_ s |}
  /\ GetBBox (Clear s) = GetBBox s
  /\ (forall src, Load src (Clear s) = Load src (set_bbox BBoxi.Empty (Clear s)))
  /\ Load CannotOpen (Clear s)
     = Throw (SystemError "cannot open input file")
         (set_bbox BBoxi.Empty (Clear s))
  /\ Load (Opened Eof) (Clear s)
     = Ok (set_tag_level 0 (set_InsideWhich NONE (set_bbox BBoxi.Empty (Clear s)))).
Proof.
  split; [reflexivity|]. split; [reflexivity|]. split; [reflexivity|].
  split; [reflexivity|].
  unfold Load. cbn [parse]. f_equal.
Qed.

(** ** Winding order, closure and members at concrete inputs *)

(** The winding example of the specification: the square listed
    counter-clockwise is closed and not clockwise, its reverse is clockwise. *)
Example square_not_clockwise :
  exists s way,
    Load (Opened square) new_PreloadedXmlDatasource = Ok s
    /\ GetWay 1 s = Val way
    /\ Closed way = true /\ Clockwise way = false.
Proof. eexists _, _. split; [vm_compute; reflexivity|]. by split. Qed.

Example square_reversed_clockwise :
  exists s way,
    Load (Opened square_reversed) new_PreloadedXmlDatasource = Ok s
    /\ GetWay 1 s = Val way
    /\ Closed way = true /\ Clockwise way = true.
Proof. eexists _, _. split; [vm_compute; reflexivity|]. by split. Qed.

(** C2, at the input where the code departs from it. The ring around the
    whole map, (-180,-90) (180,-90) (180,90) (-180,90) and back, is listed
    counter-clockwise and its shoelace sum is 12960000000000000000, which is
    positive; the sum exceeds the 64-bit accumulator, whose wrapped value is
    negative, and the way is marked clockwise. *)
Theorem world_ring_marked_clockwise :
  exists s way ps,
    Load (Opened world_ring) new_PreloadedXmlDatasource = Ok s
    /\ GetWay 1 s = Val way
    /\ Closed way = true
    /\ resolve (nodes_ s) (Nodes way) = Some ps
    /\ shoelace ps = 12960000000000000000
    /\ LONG_MAX < shoelace ps
    /\ wrap64 (shoelace ps) = -5486744073709551616
    /\ Clockwise way = true.
Proof.
  eexists _, _, _. split; [vm_compute; reflexivity|].
  split; [reflexivity|]. split; [reflexivity|].
  split; [vm_compute; reflexivity|].
  repeat split.
Qed.

Example way_1231_closed :
  exists s way,
    Load (Opened (three_nodes_and_way ["1"; "2"; "3"; "1"]))
      new_PreloadedXmlDatasource = Ok s
    /\ GetWay 7 s = Val way /\ Nodes way = [1; 2; 3; 1] /\ Closed way = true.
Proof. eexists _, _. split; [vm_compute; reflexivity|]. by split. Qed.

Example way_123_not_closed :
  exists s way,
    Load (Opened (three_nodes_and_way ["1"; "2"; "3"]))
      new_PreloadedXmlDatasource = Ok s
    /\ GetWay 7 s = Val way /\ Nodes way = [1; 2; 3] /\ Closed way = false.
Proof. eexists _, _. split; [vm_compute; reflexivity|]. by split. Qed.

(** C3, at the input where the code departs from it. A way without nd
    children has an empty node sequence; its closing tag compares
    [Nodes.front()] with [Nodes.back()] without a test for emptiness, which
    is undefined, where the claim has the way not closed. *)
Theorem empty_way_closing_undefined :
  EndElement "way" inside_way_7 = Undefined
  /\ Load (Opened empty_way) new_PreloadedXmlDatasource = Undefined.
Proof. split; vm_compute; reflexivity. Qed.

(** C8, at the input where the code departs from it. A member element
    without a role attribute is not rejected: no parsing error is thrown
    and the handler builds the member from the uninitialised [role]. The
    same holds for a missing type or ref. *)
Theorem member_missing_attribute_not_rejected :
  StartElement "member" [("type", "node"); ("ref", "1")] inside_relation_9
  = Undefined
  /\ StartElement "member" [("type", "node"); ("role", "x")] inside_relation_9
    = Undefined
  /\ StartElement "member" [("ref", "1"); ("role", "x")] inside_relation_9
    = Undefined
  /\ Load (Opened member_without_role) new_PreloadedXmlDatasource = Undefined.
Proof. repeat split; vm_compute; reflexivity. Qed.

(** ** The closed and clockwise flags in general *)

(** X25. For a way with at least one node whose flag is still unset, the
    closing tag leaves closed = (first id = last id), whether or not every
    node resolves. *)
Lemma EndElement_closed_flag name s w way front rest :
  tag_level_ s = 2 -> InsideWhich s = WAY ->
  deref_last_way s = Some (w, way) ->
  Nodes way = front :: rest -> Closed way = false ->
  exists s' way',
    (EndElement name s = Ok s' \/ exists e, EndElement name s = Throw e s')
    /\ ways_ s' !! w = Some way'
    /\ Closed way' = (front =? List.last (front :: rest) front).
Proof.
  intros Hl Hw Hlast Hn Hc. unfold EndElement. rewrite Hl, Hw, Hlast, Hn.
  change (2 =? 2) with true. cbv iota.
  destruct (front =? List.last (front :: rest) front).
  - destruct (winding_loop _ _ _ _ _ _) as [bbox [area|e]];
      eexists _, _; (split; [by eauto|]); cbn; by rewrite lookup_insert_eq.
  - destruct (bbox_loop _ _ _ _) as [bbox [[]|e]];
      eexists _, _; (split; [by eauto|]); cbn; by rewrite lookup_insert_eq.
Qed.

Lemma winding_loop_resolved nodes w l prev area bbox ps :
  resolve nodes l = Some ps ->
  (winding_loop nodes w l prev area bbox).2
  = Val (area_acc (Pos <$> prev) area ps).
Proof.
  revert prev area bbox ps.
  induction l as [|i l IH]; intros prev area bbox ps Hres.
  - by injection Hres as <-.
  - unfold resolve in Hres. cbn in Hres.
    destruct (nodes !! i) as [cur|] eqn:Ei; [|done]. cbn in Hres.
    destruct (mapM _ l) as [ps'|] eqn:El; [|done]. cbn in Hres.
    injection Hres as <-.
    cbn [winding_loop]. rewrite Ei, (IH _ _ _ ps' El).
    cbn [area_acc fmap option_fmap option_map]. do 2 f_equal.
    destruct prev as [[q]|]; [|done]. by destruct cur.
Qed.

Lemma in_int_product a b : in_int a -> in_int b ->
  - 4611686016279904256 <= a * b <= 4611686018427387904.
Proof.
  unfold in_int, INT_MIN, INT_MAX. intros Ha Hb.
  destruct (Z.le_gt_cases 0 a), (Z.le_gt_cases 0 b).
  - pose proof (Z.mul_le_mono_nonneg a 2147483647 b 2147483647).
    pose proof (Z.mul_nonneg_nonneg a b). lia.
  - pose proof (Z.mul_le_mono_nonneg a 2147483647 (- b) 2147483648).
    pose proof (Z.mul_nonneg_nonneg a (- b)). lia.
  - pose proof (Z.mul_le_mono_nonneg (- a) 2147483648 b 2147483647).
    pose proof (Z.mul_nonneg_nonneg (- a) b). lia.
  - pose proof (Z.mul_le_mono_nonneg (- a) 2147483648 (- b) 2147483648).
    pose proof (Z.mul_nonneg_nonneg (- a) (- b)). lia.
Qed.

Lemma cross_exact p q :
  in_int_pos p -> in_int_pos q ->
  cross {| Pos := p |} {| Pos := q |} = x p * y q - x q * y p.
Proof.
  intros [Hxp Hyp] [Hxq Hyq]. unfold cross. cbn [Pos].
  pose proof (in_int_product _ _ Hxp Hyq) as H1.
  pose proof (in_int_product _ _ Hxq Hyp) as H2.
  rewrite (wrap64_id (x p * y q)), (wrap64_id (x q * y p)), wrap64_id;
    unfold in_long, LONG_MIN, LONG_MAX; lia.
Qed.

(** Without overflow the accumulator is the shoelace sum. *)
Lemma area_acc_shoelace q area ps :
  Forall in_int_pos (q :: ps) ->
  (forall k, in_long (area + shoelace (q :: take k ps))) ->
  area_acc (Some q) area ps = area + shoelace (q :: ps).
Proof.
  revert q area. induction ps as [|p ps IH]; intros q area Hpos Hsum.
  - cbn. lia.
  - apply Forall_cons in Hpos as [Hq Hps].
    pose proof Hps as Hps'. apply Forall_cons in Hps' as [Hp _].
    cbn [area_acc]. rewrite cross_exact by done.
    pose proof (Hsum 1%nat) as H1. cbn in H1.
    rewrite wrap64_id by (by replace (area + (x q * y p - x p * y q))
                               with (area + (x q * y p - x p * y q + 0)) by lia).
    rewrite IH; [cbn [shoelace]; lia|done|].
    intros k. specialize (Hsum (S k)). cbn [take shoelace] in Hsum.
    by replace (area + (x q * y p - x p * y q) + shoelace (p :: take k ps))
      with (area + (x q * y p - x p * y q + shoelace (p :: take k ps))) by lia.
Qed.

Lemma last_default_irrel (l : list Z) a d d' :
  List.last (a :: l) d = List.last (a :: l) d'.
Proof.
  revert a. induction l as [|b l IH]; intros a; [done|].
  change (List.last (b :: l) d = List.last (b :: l) d'). apply IH.
Qed.

(** X26. For a closed way whose nodes all resolve, clockwise is the sign of
    the shoelace sum (false at zero) as long as no partial sum leaves the
    64-bit range. *)
Lemma EndElement_clockwise_flag name s w way ps :
  tag_level_ s = 2 -> InsideWhich s = WAY ->
  deref_last_way s = Some (w, way) ->
  hd_error (Nodes way) = Some (List.last (Nodes way) 0) ->
  resolve (nodes_ s) (Nodes way) = Some ps ->
  Forall in_int_pos ps ->
  (forall k, in_long (shoelace (take k ps))) ->
  exists s' way',
    EndElement name s = Ok s'
    /\ ways_ s' !! w = Some way'
    /\ Closed way' = true
    /\ Clockwise way' = (shoelace ps <? 0).
Proof.
  intros Hl Hw Hlast Hclosed Hres Hpos Hsum.
  unfold EndElement. rewrite Hl, Hw, Hlast.
  change (2 =? 2) with true. cbv iota.
  destruct (Nodes way) as [|front rest] eqn:En; [done|].
  cbn [hd_error] in Hclosed. injection Hclosed as Hclosed.
  assert (Hfl : (front =? List.last (front :: rest) front) = true).
  { apply Z.eqb_eq. rewrite Hclosed at 1. apply last_default_irrel. }
  rewrite Hfl.
  change (Nodes (set_Closed true way)) with (Nodes way). rewrite En.
  pose proof (winding_loop_resolved (nodes_ s) w (front :: rest) None 0
                (BBox (set_Closed true way)) ps Hres) as Hloop.
  destruct (winding_loop _ _ _ _ _ _) as [bbox r]. cbn [snd] in Hloop. subst r.
  eexists _, _. split; [reflexivity|].
  split; [cbn; by rewrite lookup_insert_eq|]. split; [done|].
  cbn [Clockwise set_Clockwise fmap option_fmap option_map].
  destruct ps as [|q ps]; [done|].
  cbn [area_acc]. rewrite area_acc_shoelace; [done|done|].
  intros k. specialize (Hsum (S k)). by cbn [take] in Hsum.
Qed.

(** ** Members of a relation *)

(** A member whose type is none of node, way and relation is rejected with a
    parsing error, wherever the type attribute stands among ref and role. *)
Lemma parse_member_bad_type pre v post ref role type :
  Forall (fun a => a.1 = "ref" \/ a.1 = "role") pre ->
  v <> "node" -> v <> "way" -> v <> "relation" ->
  parse_member (pre ++ ("type", v) :: post) ref role type
  = Raise (ParsingException "bad relation member role").
Proof.
  intros Hpre Hn Hw Hr. revert ref role type.
  induction Hpre as [|[a u] pre [Ha|Ha] _ IH]; intros ref role type.
  - cbn [app parse_member]. change (String.eqb "type" "ref") with false.
    change (String.eqb "type" "type") with true. cbv iota.
    by rewrite !(proj2 (String.eqb_neq _ _)).
  - cbn in Ha. subst a. cbn [app parse_member].
    change (String.eqb "ref" "ref") with true. cbv iota. apply IH.
  - cbn in Ha. subst a. cbn [app parse_member].
    change (String.eqb "role" "ref") with false.
    change (String.eqb "role" "type") with false.
    change (String.eqb "role" "role") with true. cbv iota. apply IH.
Qed.

(** X27. Inside a relation, a member element whose type is none of node,
    way and relation is rejected with the parsing error "bad relation
    member role" and the object is unchanged, wherever the type attribute
    stands among ref and role. *)
Lemma member_bad_type_rejected s pre v post :
  tag_level_ s = 2 -> InsideWhich s = RELATION ->
  Forall (fun a => a.1 = "ref" \/ a.1 = "role") pre ->
  v <> "node" -> v <> "way" -> v <> "relation" ->
  StartElement "member" (pre ++ ("type", v) :: post) s
  = Throw (ParsingException "bad relation member role") s.
Proof.
  intros Hl Hr Hpre Hn Hw Hrel. unfold StartElement. rewrite Hl, Hr.
  cbn -[parse_member]. by rewrite parse_member_bad_type.
Qed.

(** ** The union of positions is their bounding box *)

(** Every position lies inside the union. *)
Lemma union_of_covers ps p :
  Forall in_int_pos ps -> p ∈ ps ->
  left (union_of ps) <= x p <= right (union_of ps)
  /\ bottom (union_of ps) <= y p <= top (union_of ps).
Proof.
  intros Hpos Hin. induction ps as [|q ps IH]; [by apply elem_of_nil in Hin|].
  apply Forall_cons in Hpos as [Hq Hps].
  change (union_of (q :: ps)) with (BBoxi.Include q (union_of ps)).
  rewrite Include_min_max. cbn.
  apply elem_of_cons in Hin as [->|Hin]; [lia|].
  specialize (IH Hps Hin). lia.
Qed.

(** Each side of the union of a non-empty list is attained by a position. *)
Lemma union_of_tight ps :
  Forall in_int_pos ps -> ps <> [] ->
  (exists p, p ∈ ps /\ x p = left (union_of ps))
  /\ (exists p, p ∈ ps /\ y p = bottom (union_of ps))
  /\ (exists p, p ∈ ps /\ x p = right (union_of ps))
  /\ (exists p, p ∈ ps /\ y p = top (union_of ps)).
Proof.
  intros Hpos Hne. induction ps as [|q ps IH]; [done|].
  apply Forall_cons in Hpos as [[Hx Hy] Hps].
  change (union_of (q :: ps)) with (BBoxi.Include q (union_of ps)).
  rewrite Include_min_max. cbn.
  destruct ps as [|q' ps'].
  { unfold in_int in *. cbn.
    repeat split; exists q; (split; [apply elem_of_cons; by left|lia]). }
  destruct IH as ((pl & Hpl & El) & (pb & Hpb & Eb) & (pr & Hpr & Er) & (pt & Hpt & Et));
    [done|done|].
  set (u := union_of (q' :: ps')) in *.
  repeat split.
  - destruct (Z.le_gt_cases (x q) (left u)).
    + exists q. split; [apply elem_of_cons; by left|lia].
    + exists pl. split; [apply elem_of_cons; by right|lia].
  - destruct (Z.le_gt_cases (y q) (bottom u)).
    + exists q. split; [apply elem_of_cons; by left|lia].
    + exists pb. split; [apply elem_of_cons; by right|lia].
  - destruct (Z.le_gt_cases (right u) (x q)).
    + exists q. split; [apply elem_of_cons; by left|lia].
    + exists pr. split; [apply elem_of_cons; by right|lia].
  - destruct (Z.le_gt_cases (top u) (y q)).
    + exists q. split; [apply elem_of_cons; by left|lia].
    + exists pt. split; [apply elem_of_cons; by right|lia].
Qed.

(** ** Stored nodes are never altered *)

Lemma StartElement_keeps_node name atts s s' id n :
  nodes_ s !! id = Some n ->
  StartElement name atts s = Ok s' -> nodes_ s' !! id = Some n.
Proof.
  intros Hn. unfold StartElement, enter.
  case_handler; intros [= <-]; cbn; try done.
  by apply map_insert_keeps.
Qed.

Lemma EndElement_keeps_nodes name s s' :
  EndElement name s = Ok s' -> nodes_ s' = nodes_ s.
Proof.
  unfold EndElement, leave_container.
  case_handler; intros [= <-]; done.
Qed.

Lemma parse_keeps_node f s s' id n :
  nodes_ s !! id = Some n -> parse f s = Ok s' -> nodes_ s' !! id = Some n.
Proof.
  revert s. induction f as [pos ev rest IH| | |]; intros s Hn; cbn [parse].
  - destruct (dispatch ev s) as [s1|[]|] eqn:E; try done.
    apply IH. destruct ev as [name atts|name]; cbn [dispatch] in E.
    + by eapply StartElement_keeps_node.
    + by rewrite (EndElement_keeps_nodes _ _ _ E).
  - by intros [= <-].
  - done.
  - done.
Qed.

(** ** The codec stays within [int] *)

(** The invariant of the scanning loop: before the dot the value is at most
    180, after it the value is below 181·10^fracdig, so that no [int]
    operation of [ParseCoord] overflows. *)
Lemma ParseCoord_loop_bound s value fracdig haddot :
  0 <= haddot -> 0 <= fracdig < 7 ->
  0 <= value < 181 * 10 ^ fracdig ->
  (haddot = 0 -> fracdig = 0) ->
  match ParseCoord_loop s value fracdig haddot with
  | Val (value', fracdig', _) =>
      0 <= fracdig' <= 7 /\ 0 <= value' < 181 * 10 ^ fracdig'
  | Raise _ => True
  end.
Proof.
  revert value fracdig haddot.
  induction s as [|c s IH]; intros value fracdig haddot Hh Hf Hv H0;
    cbn [ParseCoord_loop].
  - lia.
  - destruct (is_digit c) eqn:Hc.
    + pose proof (digit_val_range c Hc) as Hd.
      destruct (Z.eqb_spec haddot 0) as [E|E]; cbn [andb negb].
      * specialize (H0 E). subst fracdig.
        destruct (Z.gtb_spec (value * 10 + digit_val c) 180); [done|].
        apply IH; [lia|lia| |done]. change (10 ^ 0) with 1. lia.
      * assert (Hnext : 0 <= value * 10 + digit_val c < 181 * 10 ^ (fracdig + 1)).
        { rewrite Z.pow_add_r by lia. change (10 ^ 1) with 10. lia. }
        destruct (Z.eqb_spec (fracdig + 1) 7); [split; [lia|done]|].
        apply IH; [lia|lia|done|lia].
    + destruct (Ascii.eqb c "."); [|done].
      apply IH; [lia|lia|done|lia].
Qed.

Lemma ParseCoord_from_in_int neg cur v :
  ParseCoord_from neg cur = Val v -> - 1810000000 < v < 1810000000.
Proof.
  unfold ParseCoord_from.
  pose proof (ParseCoord_loop_bound cur 0 0 0) as Hb.
  destruct (ParseCoord_loop cur 0 0 0) as [[[value fracdig] haddot]|e]; [|done].
  destruct Hb as [Hf Hv]; [lia|lia|change (10 ^ 0) with 1; lia|done|].
  cbn [rbind]. destruct (haddot >? 1); [done|].
  rewrite pad_fraction_pow by lia. intros [= <-].
  assert (Hp : 0 < 10 ^ (7 - fracdig)) by (apply Z.pow_pos_nonneg; lia).
  assert (Hs : 181 * 10 ^ fracdig * 10 ^ (7 - fracdig) = 1810000000).
  { rewrite <- Z.mul_assoc, <- Z.pow_add_r by lia.
    replace (fracdig + (7 - fracdig)) with 7 by lia. done. }
  assert (0 <= value * 10 ^ (7 - fracdig) < 1810000000) by nia.
  destruct neg; lia.
Qed.


(** * Further properties of the code *)

(** ** The coordinate codec, continued *)

Lemma append_nil_r (s : string) : s +:+ "" = s.
Proof. induction s as [|c s IH]; [done|]. by rewrite append_cons, IH. Qed.

(** Every failure of the codec is a parsing exception. *)
Lemma ParseCoord_from_raises neg cur e :
  ParseCoord_from neg cur = Raise e -> exists msg, e = ParsingException msg.
Proof.
  unfold ParseCoord_from.
  pose proof (ParseCoord_loop_haddot cur 0 0 0) as H.
  destruct (ParseCoord_loop cur 0 0 0) as [[[v f] h]|e']; cbn [rbind].
  - destruct (h >? 1); [|done]. intros [= <-]. by eexists.
  - by intros [= <-].
Qed.

Lemma ParseCoord_raises str e :
  ParseCoord str = Raise e -> exists msg, e = ParsingException msg.
Proof.
  destruct str as [|c rest]; cbn [ParseCoord].
  - apply ParseCoord_from_raises.
  - destruct (Ascii.eqb c "-"); apply ParseCoord_from_raises.
Qed.

Lemma ParseCoord_magnitude str v :
  ParseCoord str = Val v -> - 1810000000 < v < 1810000000.
Proof.
  destruct str as [|c rest]; cbn [ParseCoord].
  - apply ParseCoord_from_in_int.
  - destruct (Ascii.eqb c "-"); apply ParseCoord_from_in_int.
Qed.

(** The sign test on an input that starts with the digits [ds]. *)
Lemma ParseCoord_sign neg ds rest :
  all_digits ds = true ->
  match ds, rest with
  | EmptyString, String c _ => Ascii.eqb c "-" = false
  | _, _ => True
  end ->
  ParseCoord ((if neg : bool then "-" else "") +:+ ds +:+ rest)
  = ParseCoord_from neg (ds +:+ rest).
Proof.
  intros Hds Hrest. destruct neg.
  - by rewrite append_cons, append_nil.
  - rewrite append_nil. apply ParseCoord_unsigned.
    destruct ds as [|c ds].
    + rewrite append_nil. by destruct rest.
    + rewrite append_cons. cbn [all_digits] in Hds.
      apply andb_true_iff in Hds as [Hc _]. by apply is_digit_not_dash.
Qed.

(** X1. An input without a dot, [-]digits, is read as an integer number of
    degrees: it fails when the number exceeds 180 and is scaled by 10^7
    otherwise; the empty string and a lone sign give 0. *)
Theorem ParseCoord_without_dot (neg : bool) (ds : string) :
  all_digits ds = true ->
  ParseCoord ((if neg then "-" else "") +:+ ds)
  = if 180 <? digits_value ds 0 then Raise too_large
    else Val (if neg then - (digits_value ds 0 * 10 ^ 7)
              else digits_value ds 0 * 10 ^ 7).
Proof.
  intros Hds.
  rewrite <- (append_nil_r ds) at 1.
  rewrite (ParseCoord_sign neg ds "" Hds) by (by destruct ds).
  unfold ParseCoord_from.
  rewrite ParseCoord_loop_integer by (done || lia).
  destruct (180 <? digits_value ds 0); [done|].
  cbn [ParseCoord_loop rbind]. change (0 >? 1) with false. cbv iota.
  by rewrite pad_fraction_pow by lia.
Qed.

Lemma ParseCoord_without_dot_witness :
  ParseCoord "-90" = Val (-900000000) /\ ParseCoord "" = Val 0
  /\ ParseCoord "-" = Val 0 /\ ParseCoord "200" = Raise too_large.
Proof.
  split; [|split; [|split]].
  - apply (ParseCoord_without_dot true "90"). reflexivity.
  - apply (ParseCoord_without_dot false ""). reflexivity.
  - apply (ParseCoord_without_dot true ""). reflexivity.
  - apply (ParseCoord_without_dot false "200"). reflexivity.
Defined.

(** X2. A character that is neither a digit nor a dot is rejected wherever
    it stands in the integer part, the leading minus sign excepted. *)
Theorem ParseCoord_unexpected_symbol (a : string) (c : ascii) (rest : string) :
  has_dot a = false -> is_digit c = false -> Ascii.eqb c "." = false ->
  (a = "" -> Ascii.eqb c "-" = false) ->
  is_parsing_error (ParseCoord (a +:+ String c rest)).
Proof.
  intros Ha Hc Hdot Hsign.
  assert (Hfrom : forall neg a', has_dot a' = false ->
            is_parsing_error (ParseCoord_from neg (a' +:+ String c rest))).
  { intros neg a' Ha'. unfold ParseCoord_from.
    destruct (ParseCoord_loop_no_dot a' (String c rest) 0 0 Ha') as [Herr|[v ->]].
    { destruct (ParseCoord_loop _ 0 0 0) as [|[]]; done. }
    cbn [ParseCoord_loop]. by rewrite Hc, Hdot. }
  destruct a as [|ch a].
  - rewrite append_nil, ParseCoord_unsigned by (by apply Hsign).
    by apply (Hfrom false "").
  - rewrite append_cons. cbn [ParseCoord]. destruct (Ascii.eqb ch "-").
    + cbn [has_dot] in Ha. apply orb_false_iff in Ha as [_ Ha]. by apply Hfrom.
    + rewrite <- append_cons. by apply Hfrom.
Qed.

Lemma ParseCoord_unexpected_symbol_witness :
  is_parsing_error (ParseCoord "12,5") /\ is_parsing_error (ParseCoord "1-2")
  /\ is_parsing_error (ParseCoord " 1").
Proof.
  split; [|split].
  - apply (ParseCoord_unexpected_symbol "12" "," "5"); done.
  - apply (ParseCoord_unexpected_symbol "1" "-" "2"); done.
  - apply (ParseCoord_unexpected_symbol "" " " "1"); done.
Defined.

(** Seven digits after the dot end the scan, whatever follows them. *)
Lemma ParseCoord_loop_seventh fs tail value fracdig :
  all_digits fs = true -> fs <> "" -> 0 <= fracdig ->
  fracdig + Z.of_nat (String.length fs) = 7 ->
  ParseCoord_loop (fs +:+ tail) value fracdig 1
  = Val (digits_value fs value, 7, 1).
Proof.
  revert value fracdig.
  induction fs as [|c fs IH]; intros value fracdig Hd Hne Hf Hlen; [done|].
  cbn [all_digits] in Hd. apply andb_true_iff in Hd as [Hc Hds].
  cbn [String.length] in Hlen. rewrite Nat2Z.inj_succ in Hlen.
  rewrite append_cons. cbn [ParseCoord_loop digits_value]. rewrite Hc.
  change (1 =? 0) with false. cbn [andb negb].
  destruct (Z.eqb_spec (fracdig + 1) 7) as [H7|H7].
  - destruct fs; [|cbn [String.length] in Hlen; lia]. by rewrite H7.
  - apply IH; [done| |lia|lia]. intros ->. cbn in Hlen. lia.
Qed.

(** X3. The fraction is truncated, not rounded: whatever follows the seventh
    fractional digit (more digits, a second dot, any other character) is
    ignored. *)
Theorem ParseCoord_truncates (neg : bool) (ds fs tail : string) :
  all_digits ds = true -> all_digits fs = true ->
  String.length fs = 7%nat ->
  ParseCoord ((if neg then "-" else "") +:+ ds +:+ "." +:+ fs +:+ tail)
  = ParseCoord ((if neg then "-" else "") +:+ ds +:+ "." +:+ fs).
Proof.
  intros Hds Hfs Hlen.
  assert (Hne : fs <> "") by (intros ->; done).
  rewrite !(ParseCoord_sign neg ds) by (done || by destruct ds).
  rewrite (ParseCoord_from_wellformed neg ds fs) by (done || lia).
  unfold ParseCoord_from.
  rewrite ParseCoord_loop_integer by (done || lia).
  destruct (180 <? digits_value ds 0); [done|].
  rewrite append_cons, append_nil.
  change (ParseCoord_loop (String "." ?s) ?v 0 0)
    with (ParseCoord_loop s v 0 (0 + 1)).
  rewrite ParseCoord_loop_seventh by (done || lia).
  cbn [rbind]. change (1 >? 1) with false. cbv iota zeta.
  rewrite pad_fraction_pow by lia.
  rewrite (digits_value_shift fs (digits_value ds 0)), Hlen.
  f_equal. change (10 ^ (7 - 7)) with 1.
  change (10 ^ (7 - Z.of_nat 7)) with 1. change (10 ^ Z.of_nat 7) with (10 ^ 7).
  destruct neg; ring.
Qed.

Lemma ParseCoord_truncates_witness :
  ParseCoord "1.123456789" = ParseCoord "1.1234567"
  /\ ParseCoord "-0.9999999x.y" = ParseCoord "-0.9999999".
Proof.
  split.
  - apply (ParseCoord_truncates false "1" "1234567" "89"); reflexivity.
  - apply (ParseCoord_truncates true "0" "9999999" "x.y"); reflexivity.
Defined.


(** ** The tag parser and the bounds parsers *)

Lemma ParseTag_loop_last atts key value :
  ParseTag_loop atts key value
  = (default key (last_attribute "k" atts), default value (last_attribute "v" atts)).
Proof.
  revert key value. induction atts as [|[a u] atts IH]; intros key value; [done|].
  cbn [ParseTag_loop last_attribute].
  destruct (String.eqb_spec a "k") as [->|Hk].
  - rewrite IH. change (String.eqb "k" "v") with false.
    by destruct (last_attribute "k" atts), (last_attribute "v" atts).
  - destruct (String.eqb_spec a "v") as [->|Hv]; rewrite IH;
      by destruct (last_attribute "k" atts), (last_attribute "v" atts).
Qed.

(** X4. Of the attributes of a tag element only k and v count, wherever they
    stand among others; a missing k or v is read as the empty string, so
    that a tag without k is stored under the empty key. The pair is stored
    unless the key is already present. *)
Theorem ParseTag_attributes (map : gmap string string) atts :
  ParseTag map atts
  = map_insert (default "" (last_attribute "k" atts))
      (default "" (last_attribute "v" atts)) map.
Proof. unfold ParseTag. by rewrite ParseTag_loop_last. Qed.

Lemma ParseBounds_loop_raises atts bbox e :
  ParseBounds_loop atts bbox = Raise e -> exists msg, e = ParsingException msg.
Proof.
  revert bbox. induction atts as [|[a v] atts IH]; intros bbox; [done|].
  cbn [ParseBounds_loop].
  repeat match goal with
         | |- context [String.eqb a ?n] => destruct (String.eqb a n)
         end;
    try apply IH;
    (destruct (ParseCoord v) as [c|e'] eqn:E; cbn [rbind];
     [apply IH | intros [= <-]; by apply ParseCoord_raises in E]).
Qed.

(** What the attribute loop of [ParseBounds] leaves in each field: the
    initial value when the attribute is absent, and otherwise the initial
    value or a coordinate. *)
Lemma ParseBounds_loop_fields atts bbox bbox' :
  ParseBounds_loop atts bbox = Val bbox' ->
  ((no_attribute "minlat" atts = true -> bottom bbox' = bottom bbox)
   /\ (no_attribute "maxlat" atts = true -> top bbox' = top bbox)
   /\ (no_attribute "minlon" atts = true -> left bbox' = left bbox)
   /\ (no_attribute "maxlon" atts = true -> right bbox' = right bbox))
  /\ ((bottom bbox' = bottom bbox \/ - 1810000000 < bottom bbox' < 1810000000)
      /\ (top bbox' = top bbox \/ - 1810000000 < top bbox' < 1810000000)
      /\ (left bbox' = left bbox \/ - 1810000000 < left bbox' < 1810000000)
      /\ (right bbox' = right bbox \/ - 1810000000 < right bbox' < 1810000000)).
Proof.
  revert bbox. induction atts as [|[a v] atts IH]; intros bbox.
  - intros [= <-]. repeat split; auto.
  - cbn [ParseBounds_loop no_attribute forallb fst].
    assert (Hstep : forall (set : Z -> BBoxi -> BBoxi),
              rbind (ParseCoord v) (fun c => ParseBounds_loop atts (set c bbox))
              = Val bbox' ->
              exists c, - 1810000000 < c < 1810000000
                        /\ ParseBounds_loop atts (set c bbox) = Val bbox').
    { intros set. destruct (ParseCoord v) as [c|] eqn:E; [|done].
      cbn [rbind]. intros H. exists c. split; [|done].
      by apply ParseCoord_magnitude in E. }
    destruct (String.eqb_spec a "minlat") as [->|H1].
    { intros H. apply Hstep in H as (c & Hc & H). apply IH in H.
      cbn in H. cbn. intuition (try discriminate; try lia). }
    destruct (String.eqb_spec a "maxlat") as [->|H2].
    { intros H. apply Hstep in H as (c & Hc & H). apply IH in H.
      cbn in H. cbn. intuition (try discriminate; try lia). }
    destruct (String.eqb_spec a "minlon") as [->|H3].
    { intros H. apply Hstep in H as (c & Hc & H). apply IH in H.
      cbn in H. cbn. intuition (try discriminate; try lia). }
    destruct (String.eqb_spec a "maxlon") as [->|H4].
    { intros H. apply Hstep in H as (c & Hc & H). apply IH in H.
      cbn in H. cbn. intuition (try discriminate; try lia). }
    intros H. apply IH in H. cbn [negb andb]. exact H.
Qed.

(** X5. A bounds element that lacks one of minlat, maxlat, minlon and maxlon
    is rejected with a parsing error, whatever its other attributes. *)
Theorem ParseBounds_missing_attribute atts name :
  name ∈ ["minlat"; "maxlat"; "minlon"; "maxlon"] ->
  no_attribute name atts = true ->
  is_parsing_error (ParseBounds atts).
Proof.
  intros Hname Hno. unfold ParseBounds.
  destruct (ParseBounds_loop atts BBoxi.Empty) as [bbox|e] eqn:E; cbn [rbind].
  - assert (BBoxi.IsEmpty bbox = true) as ->; [|done].
    apply ParseBounds_loop_fields in E
      as ((Hb & Ht & Hl & Hr) & (Rb & Rt & Rl & Rr)).
    cbn [BBoxi.Empty left right top bottom] in *.
    unfold BBoxi.IsEmpty, INT_MAX, INT_MIN in *.
    apply orb_true_iff. rewrite !Z.gtb_lt.
    repeat (apply elem_of_cons in Hname as [->|Hname]);
      [specialize (Hb Hno)|specialize (Ht Hno)|specialize (Hl Hno)
      |specialize (Hr Hno)|by apply elem_of_nil in Hname]; lia.
  - apply ParseBounds_loop_raises in E as [msg ->]. done.
Qed.

Lemma ParseBounds_missing_attribute_witness :
  is_parsing_error
    (ParseBounds [("minlat", "1"); ("minlon", "2"); ("maxlat", "3")]).
Proof.
  apply (ParseBounds_missing_attribute _ "maxlon").
  - do 3 (apply elem_of_cons; right). apply elem_of_cons. by left.
  - reflexivity.
Defined.

(** X6. With its four attributes a bounds element gives the box with
    bottom = minlat, left = minlon, top = maxlat and right = maxlon; it is
    rejected when a maximum lies below its minimum, and a box reduced to a
    point or a line is accepted. *)
Theorem ParseBounds_four_attributes minlat minlon maxlat maxlon b l t r :
  ParseCoord minlat = Val b -> ParseCoord minlon = Val l ->
  ParseCoord maxlat = Val t -> ParseCoord maxlon = Val r ->
  ParseBounds [("minlat", minlat); ("minlon", minlon);
               ("maxlat", maxlat); ("maxlon", maxlon)]
  = if (l >? r) || (b >? t) then Raise incorrect_bbox
    else Val {| left := l; bottom := b; right := r; top := t |}.
Proof.
  intros Hb Hl Ht Hr. unfold ParseBounds.
  change (ParseBounds_loop _ BBoxi.Empty)
    with (rbind (ParseCoord minlat) (fun c1 =>
          rbind (ParseCoord minlon) (fun c2 =>
          rbind (ParseCoord maxlat) (fun c3 =>
          rbind (ParseCoord maxlon) (fun c4 =>
            Val (set_right c4 (set_top c3 (set_left c2
                   (set_bottom c1 BBoxi.Empty))))))))).
  by rewrite Hb, Hl, Ht, Hr.
Qed.

Lemma ParseBounds_four_attributes_witness :
  ParseBounds [("minlat", "1"); ("minlon", "2"); ("maxlat", "1"); ("maxlon", "3")]
  = Val {| left := 20000000; bottom := 10000000;
           right := 30000000; top := 10000000 |}
  /\ ParseBounds [("minlat", "1"); ("minlon", "3"); ("maxlat", "1"); ("maxlon", "2")]
     = Raise incorrect_bbox.
Proof.
  split.
  - apply (ParseBounds_four_attributes "1" "2" "1" "3"
             10000000 20000000 10000000 30000000); reflexivity.
  - apply (ParseBounds_four_attributes "1" "3" "1" "2"
             10000000 30000000 10000000 20000000); reflexivity.
Defined.


(** *** The legacy bound element *)

Lemma prefix_comma c s : String.prefix "," (String c s) = Ascii.eqb c ",".
Proof.
  cbn [String.prefix]. destruct (ascii_dec "," c) as [<-|Hne].
  - by destruct s.
  - destruct (Ascii.eqb_spec c ","); congruence.
Qed.

Lemma find_comma_cons c s n :
  find_comma (String c s) n
  = match n with
    | O => if Ascii.eqb c "," then Some O else S <$> find_comma s O
    | S n => S <$> find_comma s n
    end.
Proof.
  unfold find_comma. destruct n as [|n]; cbn [index].
  - rewrite prefix_comma. destruct (Ascii.eqb c ","); [done|].
    by destruct (index 0 "," s).
  - by destruct (index n "," s).
Qed.

Lemma find_comma_nil n : find_comma "" n = None.
Proof. by destruct n. Qed.

(** A search that succeeds finds one comma; one that fails finds none. *)
Lemma find_comma_commas s n :
  match find_comma s n with
  | Some p => commas_from s n = S (commas_from s (S p))
  | None => commas_from s n = O
  end.
Proof.
  revert n. induction s as [|c s IH]; intros n.
  - rewrite find_comma_nil. by destruct n.
  - rewrite find_comma_cons. destruct n as [|n].
    + cbn [commas_from]. destruct (Ascii.eqb c ","); [done|].
      specialize (IH O). by destruct (find_comma s 0).
    + specialize (IH n). by destruct (find_comma s n).
Qed.

Lemma ParseBound_loop_skip pre atts bbox :
  no_attribute "box" pre = true ->
  ParseBound_loop (pre ++ atts) bbox = ParseBound_loop atts bbox.
Proof.
  induction pre as [|[a v] pre IH]; [done|].
  cbn [no_attribute forallb fst app ParseBound_loop].
  intros H. apply andb_true_iff in H as [Ha Hpre].
  apply negb_true_iff in Ha. rewrite Ha. by apply IH.
Qed.

(** X7. A bound element whose box value has fewer than three commas is
    rejected with the parsing error "bad bbox format". *)
Theorem ParseBound_too_few_commas pre v rest :
  no_attribute "box" pre = true -> (commas_from v 0 < 3)%nat ->
  ParseBound (pre ++ ("box", v) :: rest) = Raise bad_bbox_format.
Proof.
  intros Hpre Hc. unfold ParseBound. rewrite ParseBound_loop_skip by done.
  cbn [ParseBound_loop]. change (String.eqb "box" "box") with true. cbv iota.
  unfold parse_box.
  pose proof (find_comma_commas v 0) as H1.
  destruct (find_comma v 0) as [p1|]; [|done].
  pose proof (find_comma_commas v (p1 + 1)) as H2.
  destruct (find_comma v (p1 + 1)) as [p2|]; [|done].
  pose proof (find_comma_commas v (p2 + 1)) as H3.
  destruct (find_comma v (p2 + 1)) as [p3|]; [|done].
  rewrite Nat.add_1_r in H2, H3. lia.
Qed.

Lemma ParseBound_too_few_commas_witness :
  ParseBound [("origin", "x"); ("box", "1,2,3")] = Raise bad_bbox_format.
Proof.
  apply (ParseBound_too_few_commas [("origin", "x")] "1,2,3" []);
    [reflexivity | cbn; lia].
Defined.

(** X8. A bound element without a box attribute is accepted and leaves the
    box at the empty sentinel: unlike bounds, it is not checked. *)
Theorem ParseBound_without_box atts :
  no_attribute "box" atts = true -> ParseBound atts = Val BBoxi.Empty.
Proof.
  intros H. unfold ParseBound.
  rewrite <- (app_nil_r atts). by rewrite ParseBound_loop_skip.
Qed.

Lemma ParseBound_without_box_witness :
  ParseBound [("origin", "x")] = Val BBoxi.Empty.
Proof. apply (ParseBound_without_box [("origin", "x")]). reflexivity. Defined.

Lemma find_comma_app a s n :
  find_comma (a +:+ s) (String.length a + n)
  = (fun p => (String.length a + p)%nat) <$> find_comma s n.
Proof.
  induction a as [|c a IH].
  - rewrite append_nil. cbn. by destruct (find_comma s n).
  - rewrite append_cons, find_comma_cons. cbn [String.length Nat.add].
    rewrite IH. by destruct (find_comma s n).
Qed.

Lemma find_comma_first a s :
  no_comma a = true ->
  find_comma (a +:+ String "," s) 0 = Some (String.length a).
Proof.
  unfold no_comma. rewrite Nat.eqb_eq.
  induction a as [|c a IH]; intros Ha.
  - by rewrite append_nil, find_comma_cons.
  - rewrite append_cons, find_comma_cons. cbn [commas_from] in Ha.
    destruct (Ascii.eqb c ","); [done|]. by rewrite IH.
Qed.

Lemma substring_app a s n m :
  String.substring (String.length a + n) m (a +:+ s) = String.substring n m s.
Proof.
  induction a as [|c a IH]; [done|]. by rewrite append_cons.
Qed.

Lemma substring_prefix a s :
  String.substring 0 (String.length a) (a +:+ s) = a.
Proof.
  induction a as [|c a IH]; [by destruct s|].
  rewrite append_cons. cbn [String.length String.substring]. by rewrite IH.
Qed.

Lemma substring_all s : String.substring 0 (String.length s) s = s.
Proof. rewrite <- (append_nil_r s) at 2. apply substring_prefix. Qed.

Lemma length_append (a s : string) :
  String.length (a +:+ s) = (String.length a + String.length s)%nat.
Proof.
  induction a as [|c a IH]; [done|].
  rewrite append_cons. cbn [String.length]. by rewrite IH.
Qed.

(** X9. The box of a bound element is read as bottom,left,top,right (that
    is lat,lon,lat,lon): its four comma-separated parts are decoded by the
    coordinate codec in that order. No check is made on the box obtained. *)
Theorem ParseBound_box sb sl st sr b l t r :
  no_comma sb = true -> no_comma sl = true -> no_comma st = true ->
  ParseCoord sb = Val b -> ParseCoord sl = Val l ->
  ParseCoord st = Val t -> ParseCoord sr = Val r ->
  ParseBound [("box", sb +:+ "," +:+ sl +:+ "," +:+ st +:+ "," +:+ sr)]
  = Val {| left := l; bottom := b; right := r; top := t |}.
Proof.
  intros Nb Nl Nt Hb Hl Ht Hr. unfold ParseBound. cbn [ParseBound_loop].
  change (String.eqb "box" "box") with true. cbv iota.
  set (s3 := st +:+ "," +:+ sr).
  set (s2 := sl +:+ "," +:+ s3).
  set (s := sb +:+ "," +:+ s2).
  unfold parse_box.
  assert (E1 : find_comma s 0 = Some (String.length sb)).
  { unfold s. rewrite append_cons, append_nil. by apply find_comma_first. }
  assert (E2 : find_comma s (String.length sb + 1)
               = Some (String.length sb + S (String.length sl))%nat).
  { unfold s. rewrite find_comma_app, append_cons, append_nil, find_comma_cons.
    unfold s2. rewrite append_cons, append_nil, find_comma_first by done. done. }
  assert (E3 : find_comma s (String.length sb + S (String.length sl) + 1)
               = Some (String.length sb + S (String.length sl + S (String.length st)))%nat).
  { replace (String.length sb + S (String.length sl) + 1)%nat
      with (String.length sb + S (String.length sl + 1))%nat by lia.
    unfold s. rewrite find_comma_app, append_cons, append_nil, find_comma_cons.
    unfold s2. rewrite find_comma_app, append_cons, append_nil, find_comma_cons.
    unfold s3. rewrite append_cons, append_nil, find_comma_first by done. done. }
  rewrite E1, E2, E3.
  assert (P0 : substr s 0 (String.length sb) = sb).
  { unfold substr, s. apply substring_prefix. }
  assert (P1 : substr s (String.length sb + 1)
                 (String.length sb + S (String.length sl) - String.length sb - 1) = sl).
  { replace (String.length sb + S (String.length sl) - String.length sb - 1)%nat
      with (String.length sl) by lia.
    unfold substr, s. rewrite substring_app, append_cons, append_nil.
    cbn [String.substring]. unfold s2. apply substring_prefix. }
  assert (P2 : substr s (String.length sb + S (String.length sl) + 1)
                 (String.length sb + S (String.length sl + S (String.length st))
                  - (String.length sb + S (String.length sl)) - 1) = st).
  { replace (String.length sb + S (String.length sl + S (String.length st))
             - (String.length sb + S (String.length sl)) - 1)%nat
      with (String.length st) by lia.
    replace (String.length sb + S (String.length sl) + 1)%nat
      with (String.length sb + S (String.length sl + 1))%nat by lia.
    unfold substr, s. rewrite substring_app, append_cons, append_nil.
    cbn [String.substring]. unfold s2.
    rewrite substring_app, append_cons, append_nil.
    cbn [String.substring]. unfold s3. apply substring_prefix. }
  assert (P3 : substr_from s
                 (String.length sb + S (String.length sl + S (String.length st)) + 1)
               = sr).
  { unfold substr_from.
    replace (String.length s
             - (String.length sb + S (String.length sl + S (String.length st)) + 1))%nat
      with (String.length sr).
    2:{ unfold s, s2, s3. rewrite !length_append. cbn [String.length]. lia. }
    replace (String.length sb + S (String.length sl + S (String.length st)) + 1)%nat
      with (String.length sb + S (String.length sl + S (String.length st + 1)))%nat
      by lia.
    unfold s. rewrite substring_app, append_cons, append_nil.
    cbn [String.substring]. unfold s2.
    rewrite substring_app, append_cons, append_nil.
    cbn [String.substring]. unfold s3.
    rewrite substring_app, append_cons, append_nil.
    cbn [String.substring]. apply substring_all. }
  rewrite P0, P1, P2, P3, Hb, Hl, Ht, Hr. reflexivity.
Qed.

Lemma ParseBound_box_witness :
  ParseBound [("box", "-1.5,2,3,40.25")]
  = Val {| left := 20000000; bottom := -15000000;
           right := 402500000; top := 30000000 |}.
Proof.
  apply (ParseBound_box "-1.5" "2" "3" "40.25"); reflexivity.
Defined.

(** ** The handlers as a state machine *)

Lemma ParseBounds_raises atts e :
  ParseBounds atts = Raise e -> exists msg, e = ParsingException msg.
Proof.
  unfold ParseBounds.
  destruct (ParseBounds_loop atts BBoxi.Empty) as [b|e'] eqn:E; cbn [rbind].
  - destruct (BBoxi.IsEmpty b); [|done]. intros [= <-]. by eexists.
  - intros [= <-]. by apply ParseBounds_loop_raises in E.
Qed.

Lemma parse_box_raises v bbox e :
  parse_box v bbox = Raise e -> exists msg, e = ParsingException msg.
Proof.
  unfold parse_box.
  repeat match goal with
         | |- context [find_comma ?s ?n] =>
             destruct (find_comma s n); [|intros [= <-]; by eexists]
         end.
  repeat match goal with
         | |- context [ParseCoord ?x] =>
             let E := fresh "E" in
             destruct (ParseCoord x) eqn:E; cbn [rbind];
             [|intros [= <-]; by apply ParseCoord_raises in E]
         end.
  done.
Qed.

Lemma ParseBound_loop_raises atts bbox e :
  ParseBound_loop atts bbox = Raise e -> exists msg, e = ParsingException msg.
Proof.
  revert bbox. induction atts as [|[a v] atts IH]; intros bbox; [done|].
  cbn [ParseBound_loop]. destruct (String.eqb a "box"); [|apply IH].
  destruct (parse_box v bbox) as [b|e'] eqn:E; cbn [rbind]; [apply IH|].
  intros [= <-]. by apply parse_box_raises in E.
Qed.

Lemma parse_id_lat_lon_raises atts id lat lon e :
  parse_id_lat_lon atts id lat lon = Raise e -> exists msg, e = ParsingException msg.
Proof.
  revert id lat lon. induction atts as [|[a v] atts IH]; intros id lat lon; [done|].
  cbn [parse_id_lat_lon].
  destruct (String.eqb a "id"); [apply IH|].
  destruct (String.eqb a "lat").
  { destruct (ParseCoord v) eqn:E; cbn [rbind]; [apply IH|].
    intros [= <-]. by apply ParseCoord_raises in E. }
  destruct (String.eqb a "lon"); [|apply IH].
  destruct (ParseCoord v) eqn:E; cbn [rbind]; [apply IH|].
  intros [= <-]. by apply ParseCoord_raises in E.
Qed.

Lemma parse_member_raises atts ref role type e :
  parse_member atts ref role type = Raise e -> exists msg, e = ParsingException msg.
Proof.
  revert ref role type.
  induction atts as [|[a v] atts IH]; intros ref role type; [done|].
  cbn [parse_member].
  repeat match goal with
         | |- context [String.eqb ?x ?n] => destruct (String.eqb x n)
         end;
    try apply IH; intros [= <-]; by eexists.
Qed.

Lemma StartElement_throws name atts s e s' :
  StartElement name atts s = Throw e s' ->
  s' = s /\ exists msg, e = ParsingException msg.
Proof.
  unfold StartElement, enter.
  case_handler; intros [= <- <-]; (split; [done|]);
    try (by eexists);
    repeat match goal with
           | H : parse_id_lat_lon _ _ _ _ = Raise _ |- _ =>
               apply parse_id_lat_lon_raises in H
           | H : ParseBounds _ = Raise _ |- _ => apply ParseBounds_raises in H
           | H : ParseBound _ = Raise _ |- _ =>
               apply ParseBound_loop_raises in H
           | H : parse_member _ _ _ _ = Raise _ |- _ =>
               apply parse_member_raises in H
           end; done.
Qed.

(** X10. A start tag that is rejected changes nothing: the object is left
    exactly as it was, and the exception is a parsing exception. *)
Theorem StartElement_failure_atomic name atts s e s' :
  StartElement name atts s = Throw e s' ->
  s' = s /\ exists msg, e = ParsingException msg.
Proof. apply StartElement_throws. Qed.

Lemma StartElement_failure_atomic_witness :
  exists e s',
    StartElement "node" [("id", "1"); ("lat", "91x"); ("lon", "0")]
      (set_tag_level 1 new_PreloadedXmlDatasource) = Throw e s'
    /\ s' = set_tag_level 1 new_PreloadedXmlDatasource
    /\ exists msg, e = ParsingException msg.
Proof.
  eexists _, _. split; [reflexivity|].
  apply (StartElement_failure_atomic "node" [("id", "1"); ("lat", "91x"); ("lon", "0")]).
  reflexivity.
Defined.

(** X11. The grammar is strict below the top level: an element opened at
    depth 2 outside a node, way or relation, or at any greater depth, is
    rejected with "unexpected tag", whatever its name. *)
Theorem StartElement_too_deep name atts s :
  2 <= tag_level_ s -> (tag_level_ s = 2 -> InsideWhich s = NONE) ->
  StartElement name atts s = Throw (ParsingException "unexpected tag") s.
Proof.
  intros Hl Hn. unfold StartElement.
  destruct (Z.eqb_spec (tag_level_ s) 1) as [?|_]; [lia|]. cbn [andb].
  destruct (Z.eqb_spec (tag_level_ s) 2) as [E|_].
  - rewrite (Hn E). cbn. by rewrite E.
  - cbn [andb]. destruct (Z.geb_spec (tag_level_ s) 2); [done|lia].
Qed.

Lemma StartElement_too_deep_witness :
  StartElement "tag" [("k", "a"); ("v", "b")] (set_tag_level 3 inside_way_7)
  = Throw (ParsingException "unexpected tag") (set_tag_level 3 inside_way_7).
Proof.
  apply (StartElement_too_deep "tag" _ (set_tag_level 3 inside_way_7));
    [cbn; lia | cbn; lia].
Defined.

Lemma deref_last_relation_spec s r rel :
  deref_last_relation s = Some (r, rel) <->
  last_relation_ s = Some r /\ relations_ s !! r = Some rel.
Proof.
  unfold deref_last_relation. split.
  - destruct (last_relation_ s) as [r'|]; [|done].
    destruct (relations_ s !! r') as [rel'|] eqn:E; [|done].
    intros [= -> ->]. done.
  - intros [-> ->]. done.
Qed.



Lemma Inside_eqb_eq a b : Inside_eqb a b = true <-> a = b.
Proof. destruct a, b; cbn; split; congruence. Qed.

(** ** Where the handlers have no defined behaviour *)

Ltac use_context :=
  repeat match goal with
         | H : _ && Inside_eqb _ _ = true |- _ =>
             apply andb_true_iff in H as [_ H]; apply Inside_eqb_eq in H
         | H : deref_last_way _ = Some _ |- _ =>
             apply deref_last_way_spec in H as [? ?]
         | H : deref_last_relation _ = Some _ |- _ =>
             apply deref_last_relation_spec in H as [? ?]
         end.

Ltac solve_valid :=
  unfold iterators_valid, deref_last_way, deref_last_relation; cbn;
  repeat match goal with
         | H : InsideWhich _ = _ |- _ => rewrite H
         | H : last_way_ _ = _ |- _ => rewrite H
         | H : last_relation_ _ = _ |- _ => rewrite H
         end;
  rewrite ?map_insert_lookup, ?lookup_insert_eq; done.

Lemma StartElement_keeps_valid name atts s s' :
  iterators_valid s = true ->
  StartElement name atts s = Ok s' -> iterators_valid s' = true.
Proof.
  intros Hv. unfold StartElement, enter.
  case_handler; intros [= <-]; try exact Hv; use_context; solve_valid.
Qed.

Lemma EndElement_keeps_valid name s s' :
  iterators_valid s = true ->
  EndElement name s = Ok s' \/ (exists e, EndElement name s = Throw e s') ->
  iterators_valid s' = true.
Proof.
  intros Hv. unfold EndElement, leave_container.
  case_handler; (intros [H|[e' H]]; simplify_eq);
    try exact Hv; try done; use_context; solve_valid.
Qed.



(** X14. Whatever happens to an event, accepted or rejected, the iterator
    of the container being filled still points to a stored entry
    afterwards. *)
Theorem dispatch_keeps_iterators_valid ev s s' :
  iterators_valid s = true ->
  dispatch ev s = Ok s' \/ (exists e, dispatch ev s = Throw e s') ->
  iterators_valid s' = true.
Proof.
  intros Hv H. destruct ev as [name atts|name]; cbn [dispatch] in H.
  - destruct H as [H|[e H]].
    + by eapply StartElement_keeps_valid.
    + apply StartElement_throws in H as [-> _]. done.
  - by eapply EndElement_keeps_valid.
Qed.

Lemma dispatch_keeps_iterators_valid_witness :
  exists s',
    dispatch (StartTag "nd" [("ref", "5")]) inside_way_7 = Ok s'
    /\ iterators_valid s' = true.
Proof.
  eexists. split; [reflexivity|].
  apply (dispatch_keeps_iterators_valid (StartTag "nd" [("ref", "5")]) inside_way_7);
    [reflexivity | left; reflexivity].
Defined.






(** ** Children of nodes and relations *)

Lemma set_tag_level_same s : set_tag_level (tag_level_ s) s = s.
Proof. by destruct s. Qed.

Lemma set_tag_level_twice n m s :
  set_tag_level n (set_tag_level m s) = set_tag_level n s.
Proof. done. Qed.

(** A tag child met inside a node, or inside a relation, is accepted and
    leaves no trace. *)
Lemma run_ignored_tags kvs rest s :
  tag_level_ s = 2 -> InsideWhich s = NODE \/ InsideWhich s = RELATION ->
  run (concat (map tag_element kvs) ++ rest) s = run rest s.
Proof.
  intros Hl Hi. induction kvs as [|kv kvs IH]; [done|].
  cbn [map concat tag_element app run dispatch].
  assert (Hstart : StartElement "tag" [("k", kv.1); ("v", kv.2)] s
                   = Ok (set_tag_level 3 s)).
  { unfold StartElement, enter. rewrite Hl. by destruct Hi as [-> | ->]. }
  rewrite Hstart, EndElement_child by done.
  rewrite set_tag_level_twice, <- Hl, set_tag_level_same. exact IH.
Qed.

(** X15. Tags of nodes and of relations are not stored: a node element, or
    a relation element, with tag children is handled exactly as the same
    element without them. *)
Theorem node_and_relation_tags_ignored s atts kvs :
  tag_level_ s = 1 -> InsideWhich s = NONE ->
  run (StartTag "node" atts :: concat (map tag_element kvs) ++ [EndTag "node"]) s
  = run [StartTag "node" atts; EndTag "node"] s
  /\ run (StartTag "relation" atts :: concat (map tag_element kvs)
            ++ [EndTag "relation"]) s
     = run [StartTag "relation" atts; EndTag "relation"] s.
Proof.
  intros Hl Hn. split; cbn [run dispatch].
  - destruct (StartElement "node" atts s) as [s1| |] eqn:E; [|done|done].
    apply run_ignored_tags.
    + revert E. unfold StartElement, enter. rewrite Hl, Hn. cbn.
      destruct (parse_id_lat_lon atts 0 0 0) as [[[? ?] ?]|]; [|done].
      intros [= <-]. cbn. lia.
    + left. revert E. unfold StartElement, enter. rewrite Hl, Hn. cbn.
      destruct (parse_id_lat_lon atts 0 0 0) as [[[? ?] ?]|]; [|done].
      by intros [= <-].
  - destruct (StartElement "relation" atts s) as [s1| |] eqn:E; [|done|done].
    apply run_ignored_tags.
    + revert E. unfold StartElement, enter. rewrite Hl, Hn. cbn.
      destruct (parse_id_lat_lon atts 0 0 0) as [[[? ?] ?]|]; [|done].
      intros [= <-]. cbn. lia.
    + right. revert E. unfold StartElement, enter. rewrite Hl, Hn. cbn.
      destruct (parse_id_lat_lon atts 0 0 0) as [[[? ?] ?]|]; [|done].
      by intros [= <-].
Qed.

Lemma node_and_relation_tags_ignored_witness :
  run (StartTag "node" [("id", "1"); ("lat", "2"); ("lon", "3")]
         :: concat (map tag_element [("name", "A"); ("amenity", "pub")])
         ++ [EndTag "node"]) (set_tag_level 1 new_PreloadedXmlDatasource)
  = run [StartTag "node" [("id", "1"); ("lat", "2"); ("lon", "3")]; EndTag "node"]
      (set_tag_level 1 new_PreloadedXmlDatasource).
Proof.
  apply (node_and_relation_tags_ignored
           (set_tag_level 1 new_PreloadedXmlDatasource)
           [("id", "1"); ("lat", "2"); ("lon", "3")]
           [("name", "A"); ("amenity", "pub")]); reflexivity.
Defined.

(** X16. An element without an id attribute is stored under the id 0: the
    id is not required. *)
Theorem missing_id_is_zero s name atts s' :
  tag_level_ s = 1 -> InsideWhich s = NONE ->
  no_attribute "id" atts = true ->
  StartElement name atts s = Ok s' ->
  (name = "node" -> last_node_ s' = Some 0 /\ is_Some (nodes_ s' !! 0))
  /\ (name = "way" -> last_way_ s' = Some 0 /\ is_Some (ways_ s' !! 0))
  /\ (name = "relation" ->
      last_relation_ s' = Some 0 /\ is_Some (relations_ s' !! 0)).
Proof.
  intros Hl Hn Hno.
  assert (Hid : forall id lat lon id' lat' lon',
            parse_id_lat_lon atts id lat lon = Val (id', lat', lon') -> id' = id).
  { induction atts as [|[a v] atts IH]; intros id lat lon id' lat' lon'.
    - by intros [= <- _ _].
    - cbn [no_attribute forallb fst] in Hno.
      apply andb_true_iff in Hno as [Ha Hno]. apply negb_true_iff in Ha.
      cbn [parse_id_lat_lon]. rewrite Ha.
      destruct (String.eqb a "lat").
      { destruct (ParseCoord v); [|done]. cbn [rbind]. by apply IH. }
      destruct (String.eqb a "lon"); [|by apply IH].
      destruct (ParseCoord v); [|done]. cbn [rbind]. by apply IH. }
  unfold StartElement, enter. rewrite Hl, Hn. cbn [Z.eqb Inside_eqb andb].
  change (1 =? 1) with true. cbv iota.
  destruct (parse_id_lat_lon atts 0 0 0) as [[[id lat] lon]|] eqn:E; [|done].
  apply Hid in E. subst id.
  intros H.
  split; [|split]; intros ->; cbn -[map_insert] in H; injection H as <-;
    cbn -[map_insert]; (split; [done|]); rewrite map_insert_lookup; by eexists.
Qed.

Lemma missing_id_is_zero_witness :
  exists s',
    StartElement "way" [("version", "3")]
      (set_tag_level 1 new_PreloadedXmlDatasource) = Ok s'
    /\ last_way_ s' = Some 0 /\ is_Some (ways_ s' !! 0).
Proof.
  eexists. split; [reflexivity|].
  apply (missing_id_is_zero (set_tag_level 1 new_PreloadedXmlDatasource)
           "way" [("version", "3")]); reflexivity.
Defined.

(** ** End-of-way processing, continued *)

Lemma foldr_Include_push p b ps :
  foldr BBoxi.Include (BBoxi.Include p b) ps
  = BBoxi.Include p (foldr BBoxi.Include b ps).
Proof.
  induction ps as [|q ps IH]; [done|]. cbn. by rewrite IH, Include_comm.
Qed.

Lemma resolve_cons nodes i l cur ps :
  nodes !! i = Some cur -> resolve nodes l = Some ps ->
  resolve nodes (i :: l) = Some (Pos cur :: ps).
Proof. unfold resolve. cbn. intros -> ->. done. Qed.

Lemma resolve_cons_inv nodes i l ps :
  resolve nodes (i :: l) = Some ps ->
  exists cur ps', nodes !! i = Some cur /\ resolve nodes l = Some ps'
                  /\ ps = Pos cur :: ps'.
Proof.
  unfold resolve. cbn. destruct (nodes !! i) as [cur|]; [|done]. cbn.
  destruct (mapM _ l) as [ps'|]; [|done]. cbn. intros [= <-].
  by exists cur, ps'.
Qed.

Lemma resolve_or_missing nodes l :
  (exists ps, resolve nodes l = Some ps) \/ (exists j, first_missing nodes l = Some j).
Proof.
  induction l as [|i l IH]; [left; by exists []|].
  cbn [first_missing]. destruct (nodes !! i) as [cur|] eqn:Ei; [|right; by eexists].
  destruct IH as [[ps Hps]|[j Hj]]; [left|right; by eexists].
  exists (Pos cur :: ps). by apply resolve_cons.
Qed.

Lemma winding_loop_bbox nodes w l prev area bbox ps :
  resolve nodes l = Some ps ->
  (winding_loop nodes w l prev area bbox).1 = foldr BBoxi.Include bbox ps.
Proof.
  revert prev area bbox ps.
  induction l as [|i l IH]; intros prev area bbox ps Hres.
  - by injection Hres as <-.
  - apply resolve_cons_inv in Hres as (cur & ps' & Ei & Hres & ->).
    cbn [winding_loop]. rewrite Ei, (IH _ _ _ ps' Hres).
    by rewrite foldr_Include_push.
Qed.

Lemma bbox_loop_resolved nodes w l bbox ps :
  resolve nodes l = Some ps ->
  bbox_loop nodes w l bbox = (foldr BBoxi.Include bbox ps, Val tt).
Proof.
  revert bbox ps. induction l as [|i l IH]; intros bbox ps Hres.
  - by injection Hres as <-.
  - apply resolve_cons_inv in Hres as (cur & ps' & Ei & Hres & ->).
    cbn [bbox_loop]. rewrite Ei, (IH _ ps' Hres).
    by rewrite foldr_Include_push.
Qed.

(** X17. When the closing tag of a way is accepted, every node of the way
    resolves and the positions of all of them have been included into the
    box of the way, closed or not; for a new way the box is the union of
    those positions. The node sequence and the tags are untouched and the
    handlers are back at the top level. *)
Theorem EndElement_way_bbox name s w way s' :
  tag_level_ s = 2 -> InsideWhich s = WAY ->
  deref_last_way s = Some (w, way) ->
  EndElement name s = Ok s' ->
  exists ps way',
    resolve (nodes_ s) (Nodes way) = Some ps
    /\ ways_ s' !! w = Some way'
    /\ BBox way' = foldr BBoxi.Include (BBox way) ps
    /\ (BBox way = BBoxi.Empty -> BBox way' = union_of ps)
    /\ Nodes way' = Nodes way /\ Tags way' = Tags way
    /\ InsideWhich s' = NONE /\ tag_level_ s' = 1.
Proof.
  intros Hl Hw Hlast. unfold EndElement, leave_container.
  rewrite Hl, Hw, Hlast. change (2 =? 2) with true. cbv iota.
  destruct (Nodes way) as [|front rest] eqn:En; [done|].
  destruct (resolve_or_missing (nodes_ s) (front :: rest)) as [[ps Hps]|[j Hj]].
  - destruct (front =? List.last (front :: rest) front).
    + change (Nodes (set_Closed true way)) with (Nodes way). rewrite En.
      pose proof (winding_loop_bbox (nodes_ s) w (front :: rest) None 0
                    (BBox (set_Closed true way)) ps Hps) as Hb.
      pose proof (winding_loop_resolved (nodes_ s) w (front :: rest) None 0
                    (BBox (set_Closed true way)) ps Hps) as Hr.
      destruct (winding_loop _ _ _ _ _ _) as [bbox r]. cbn [fst snd] in Hb, Hr.
      subst bbox r. intros [= <-]. eexists ps, _.
      split; [done|]. split; [cbn; by rewrite lookup_insert_eq|].
      cbn. repeat split; try done; try lia. by intros ->.
    + rewrite (bbox_loop_resolved _ _ _ _ ps Hps). intros [= <-]. eexists ps, _.
      split; [done|]. split; [cbn; by rewrite lookup_insert_eq|].
      cbn. repeat split; try done; try lia. by intros ->.
  - destruct (front =? List.last (front :: rest) front).
    + change (Nodes (set_Closed true way)) with (Nodes way). rewrite En.
      pose proof (winding_loop_missing (nodes_ s) w (front :: rest) None 0
                    (BBox (set_Closed true way)) j Hj) as Hr.
      destruct (winding_loop _ _ _ _ _ _) as [bbox r]. cbn [snd] in Hr.
      by subst r.
    + pose proof (bbox_loop_missing (nodes_ s) w (front :: rest) (BBox way) j Hj)
        as Hr.
      destruct (bbox_loop _ _ _ _) as [bbox r]. cbn [snd] in Hr. by subst r.
Qed.

(** X18. The closing tag of an element, accepted or rejected, touches only
    the way being closed, and of that way only the box and the two flags:
    nodes, relations, the dataset box, the iterators, every other way, and
    the node sequence and tags of every way are as before. *)
Theorem EndElement_frame name s s' :
  EndElement name s = Ok s' \/ (exists e, EndElement name s = Throw e s') ->
  nodes_ s' = nodes_ s /\ relations_ s' = relations_ s /\ bbox_ s' = bbox_ s
  /\ last_node_ s' = last_node_ s /\ last_way_ s' = last_way_ s
  /\ last_relation_ s' = last_relation_ s
  /\ (forall w, last_way_ s <> Some w -> ways_ s' !! w = ways_ s !! w)
  /\ (forall w way, ways_ s !! w = Some way ->
        exists way', ways_ s' !! w = Some way'
                     /\ Nodes way' = Nodes way /\ Tags way' = Tags way).
Proof.
  unfold EndElement, leave_container.
  case_handler; (intros [H|[e' H]]; simplify_eq); use_context;
    (repeat split; try done;
     [ intros w' Hne; cbn; apply lookup_insert_ne; congruence
     | intros w' way' Hw'; cbn;
       match goal with
       | H : last_way_ _ = Some ?k |- _ =>
           destruct (decide (k = w')) as [->|Hne];
           [rewrite lookup_insert_eq; eexists; split; [done|];
            split; cbn; congruence
           |rewrite lookup_insert_ne by done; by eexists]
       end ])
    || (repeat split; try done; intros; by eexists).
Qed.

Lemma run_closing_way_7 :
  run (StartTag "osm" [] :: node_element "5" "2" "1"
       ++ StartTag "way" [("id", "7")] :: nd_element "5")
    new_PreloadedXmlDatasource
  = Ok closing_way_7.
Proof. vm_compute. reflexivity. Qed.

Lemma run_closing_ring_7 :
  run (StartTag "osm" [] :: node_element "5" "2" "1" ++ node_element "6" "4" "3"
       ++ StartTag "way" [("id", "7")]
       :: nd_element "5" ++ nd_element "6" ++ nd_element "5")
    new_PreloadedXmlDatasource
  = Ok closing_ring_7.
Proof. vm_compute. reflexivity. Qed.

Lemma EndElement_way_bbox_witness :
  exists s' ps way',
    EndElement "way" closing_ring_7 = Ok s'
    /\ resolve (nodes_ closing_ring_7) [5; 6; 5] = Some ps
    /\ ways_ s' !! 7 = Some way'
    /\ BBox way' = union_of ps.
Proof.
  assert (E : exists s', EndElement "way" closing_ring_7 = Ok s').
  { eexists. vm_compute. reflexivity. }
  destruct E as [s' E]. exists s'.
  destruct (EndElement_way_bbox "way" closing_ring_7 7
              (set_Nodes [5; 6; 5] new_Way) s')
    as (ps & way' & Hps & Hw & _ & Hu & _); [reflexivity..|exact E|].
  exists ps, way'. split; [exact E|]. split; [exact Hps|]. split; [exact Hw|].
  apply Hu. reflexivity.
Defined.

Lemma EndElement_frame_witness :
  exists s',
    EndElement "way" closing_way_7 = Ok s'
    /\ nodes_ s' = nodes_ closing_way_7
    /\ relations_ s' = relations_ closing_way_7
    /\ bbox_ s' = bbox_ closing_way_7.
Proof.
  assert (E : exists s', EndElement "way" closing_way_7 = Ok s').
  { eexists. vm_compute. reflexivity. }
  destruct E as [s' E]. exists s'.
  destruct (EndElement_frame "way" closing_way_7 s') as (Hn & Hr & Hb & _);
    [by left|].
  by repeat split.
Defined.

(** ** Ways and relations built from their children *)

(** X19. The nd children of a way element append their references to the
    node sequence in document order, repetitions included, whether or not
    the nodes exist; a way element whose id is already stored continues the
    stored way instead of replacing it. *)
Theorem way_nodes_in_document_order s id refs :
  tag_level_ s = 1 -> InsideWhich s = NONE ->
  exists s1,
    run (StartTag "way" [("id", id)] :: concat (map nd_element refs)) s = Ok s1
    /\ GetWay (strtol_int id) s1
       = Val (let way0 := default new_Way (ways_ s !! strtol_int id) in
              set_Nodes (Nodes way0 ++ map strtol_int refs) way0)
    /\ nodes_ s1 = nodes_ s /\ tag_level_ s1 = 2 /\ InsideWhich s1 = WAY.
Proof.
  intros Hl Hn. set (w := strtol_int id).
  set (s0 := set_tag_level 2
               (set_last_way (Some w)
                 (set_ways (map_insert w new_Way (ways_ s))
                   (set_InsideWhich WAY s)))).
  assert (Hstart : StartElement "way" [("id", id)] s = Ok s0).
  { rewrite (StartElement_way s Hl Hn). unfold enter, s0. cbn. by rewrite Hl. }
  destruct (run_nd_elements refs s0 w (default new_Way (ways_ s !! w)))
    as (s1 & Hrun & Hl1 & Hw1 & Hn1 & Hd1); [done|done| |].
  { apply deref_last_way_spec. split; [done|]. apply map_insert_lookup. }
  exists s1. cbn [run dispatch]. rewrite Hstart. split; [done|].
  apply deref_last_way_spec in Hd1 as [_ Hd1].
  unfold GetWay. rewrite Hd1. by repeat split.
Qed.

Lemma way_nodes_in_document_order_witness :
  exists s1,
    run (StartTag "way" [("id", "7")] :: concat (map nd_element ["3"; "1"; "3"]))
      (set_tag_level 1 new_PreloadedXmlDatasource) = Ok s1
    /\ GetWay 7 s1 = Val (set_Nodes [3; 1; 3] new_Way).
Proof.
  destruct (way_nodes_in_document_order
              (set_tag_level 1 new_PreloadedXmlDatasource) "7" ["3"; "1"; "3"])
    as (s1 & Hrun & Hget & _); [reflexivity|reflexivity|].
  exists s1. split; [exact Hrun|exact Hget].
Defined.

Lemma run_member_elements (ms : list (Type_t * string * string)) s r rel :
  tag_level_ s = 2 -> InsideWhich s = RELATION ->
  deref_last_relation s = Some (r, rel) ->
  exists s',
    run (concat (map (fun m => member_element (type_name m.1.1, m.1.2, m.2)) ms)) s
    = Ok s'
    /\ tag_level_ s' = 2 /\ InsideWhich s' = RELATION
    /\ deref_last_relation s'
       = Some (r, {| Members := Members rel ++ map member_of ms |}).
Proof.
  revert s rel. induction ms as [|[[ty ref] role] ms IH]; intros s rel Hl Hr Hlast.
  - exists s. cbn. rewrite app_nil_r. by destruct rel.
  - cbn [map concat member_element app run dispatch fst snd].
    rewrite (StartElement_member s r rel Hl Hr Hlast). cbn [enter].
    apply deref_last_relation_spec in Hlast as [Hlr Hrels].
    rewrite EndElement_child by (cbn; lia).
    set (rel1 := {| Members := Members rel
                      ++ [{| Type_ := ty; Ref := strtol_int ref; Role := role |}] |}).
    match goal with
    | |- context [run _ ?st] =>
        destruct (IH st rel1) as (s' & Hrun & Hl' & Hr' & Hd'); [done|done| |]
    end.
    { apply deref_last_relation_spec. split; [done|]. cbn. by rewrite lookup_insert_eq. }
    exists s'. do 3 (split; [done|]).
    rewrite Hd'. unfold rel1. cbn [Members map member_of fst snd].
    by rewrite <- app_assoc.
Qed.

(** X20. The member children of a relation element are appended to its
    member sequence in document order, each with the type, reference and
    role of its attributes; a relation element whose id is already stored
    continues the stored relation. *)
Theorem relation_members_in_document_order s id
    (ms : list (Type_t * string * string)) :
  tag_level_ s = 1 -> InsideWhich s = NONE ->
  exists s1,
    run (StartTag "relation" [("id", id)]
         :: concat (map (fun m => member_element (type_name m.1.1, m.1.2, m.2)) ms)) s
    = Ok s1
    /\ GetRelation (strtol_int id) s1
       = Val {| Members :=
                  Members (default new_Relation (relations_ s !! strtol_int id))
                  ++ map member_of ms |}.
Proof.
  intros Hl Hn. set (r := strtol_int id).
  set (s0 := set_tag_level 2
               (set_last_relation (Some r)
                 (set_relations (map_insert r new_Relation (relations_ s))
                   (set_InsideWhich RELATION s)))).
  assert (Hstart : StartElement "relation" [("id", id)] s = Ok s0).
  { rewrite (StartElement_relation s Hl Hn). unfold enter, s0. cbn. by rewrite Hl. }
  destruct (run_member_elements ms s0 r (default new_Relation (relations_ s !! r)))
    as (s1 & Hrun & _ & _ & Hd1); [done|done| |].
  { apply deref_last_relation_spec. split; [done|]. apply map_insert_lookup. }
  exists s1. cbn [run dispatch]. rewrite Hstart. split; [done|].
  apply deref_last_relation_spec in Hd1 as [_ Hd1].
  unfold GetRelation. by rewrite Hd1.
Qed.

Lemma relation_members_in_document_order_witness :
  exists s1,
    run (StartTag "relation" [("id", "9")]
         :: concat (map (fun m => member_element (type_name m.1.1, m.1.2, m.2))
                      [(MemberWAY, "4", "outer"); (MemberNODE, "2", "")]))
      (set_tag_level 1 new_PreloadedXmlDatasource) = Ok s1
    /\ GetRelation 9 s1
       = Val {| Members := [{| Type_ := MemberWAY; Ref := 4; Role := "outer" |};
                            {| Type_ := MemberNODE; Ref := 2; Role := "" |}] |}.
Proof.
  apply (relation_members_in_document_order
           (set_tag_level 1 new_PreloadedXmlDatasource) "9"
           [(MemberWAY, "4", "outer"); (MemberNODE, "2", "")]); reflexivity.
Defined.

Lemma EndElement_closed_flag_witness :
  exists s' way',
    (EndElement "way" closing_ring_7 = Ok s'
     \/ exists e, EndElement "way" closing_ring_7 = Throw e s')
    /\ ways_ s' !! 7 = Some way' /\ Closed way' = true.
Proof.
  apply (EndElement_closed_flag "way" closing_ring_7 7
           (set_Nodes [5; 6; 5] new_Way) 5 [6; 5]); reflexivity.
Defined.

Lemma EndElement_clockwise_flag_witness :
  exists s' way',
    EndElement "way" closing_ring_7 = Ok s'
    /\ ways_ s' !! 7 = Some way'
    /\ Closed way' = true /\ Clockwise way' = false.
Proof.
  apply (EndElement_clockwise_flag "way" closing_ring_7 7
           (set_Nodes [5; 6; 5] new_Way)
           [{| x := 10000000; y := 20000000 |}; {| x := 30000000; y := 40000000 |};
            {| x := 10000000; y := 20000000 |}]).
  - reflexivity.
  - reflexivity.
  - reflexivity.
  - reflexivity.
  - vm_compute. reflexivity.
  - repeat (apply Forall_cons; split;
            [unfold in_int_pos, in_int, INT_MIN, INT_MAX; cbn; lia|]).
    apply Forall_nil_2.
  - intros [|[|[|[|k]]]]; unfold in_long, LONG_MIN, LONG_MAX; cbn; lia.
Defined.

(** ** Load, continued *)

Lemma EndElement_throws name s e s' :
  EndElement name s = Throw e s' -> exists msg, e = ParsingException msg.
Proof.
  unfold EndElement, leave_container.
  case_handler; intros [= <- <-];
    match goal with
    | H : winding_loop ?n ?w ?l ?p ?a ?b = (_, Raise ?e) |- _ =>
        destruct (resolve_or_missing n l) as [[ps Hps]|[j Hj]];
        [ pose proof (winding_loop_resolved n w l p a b ps Hps) as Hr;
          rewrite H in Hr; discriminate Hr
        | pose proof (winding_loop_missing n w l p a b j Hj) as Hr;
          rewrite H in Hr; cbn in Hr; injection Hr as ->; by eexists ]
    | H : bbox_loop ?n ?w ?l ?b = (_, Raise ?e) |- _ =>
        destruct (resolve_or_missing n l) as [[ps Hps]|[j Hj]];
        [ rewrite (bbox_loop_resolved n w l b ps Hps) in H; discriminate H
        | pose proof (bbox_loop_missing n w l b j Hj) as Hr;
          rewrite H in Hr; cbn in Hr; injection Hr as ->; by eexists ]
    end.
Qed.

Lemma parse_throws f s e s' :
  parse f s = Throw e s' ->
  e = SystemError "input read error" \/ exists what pos, e = verbose what pos.
Proof.
  revert s. induction f as [pos ev rest IH| |pos msg|]; intros s; cbn [parse].
  - destruct (dispatch ev s) as [s1|e1 s1|] eqn:E; [apply IH| |done].
    assert (exists msg, e1 = ParsingException msg) as [msg ->].
    { destruct ev as [name atts|name]; cbn [dispatch] in E.
      - by apply StartElement_throws in E as [_ ?].
      - by apply EndElement_throws in E. }
    intros [= <- <-]. right. by eexists _, _.
  - done.
  - intros [= <- <-]. right. by eexists _, _.
  - intros [= <- <-]. by left.
Qed.

(** X21. Every exception that leaves Load is one of four: the system error
    of an input that cannot be opened, the generic exception of a parser
    that cannot be created, the system error of a failed read, or a parsing
    exception whose message is "input parsing error: ", the original
    message, " at line " and " pos " with the tokenizer's position. No data
    exception leaves Load, and no parsing exception leaves it undecorated. *)
Theorem Load_exceptions src s e s' :
  Load src s = Throw e s' ->
  e = SystemError "cannot open input file"
  \/ e = Exception "cannot create XML parser"
  \/ e = SystemError "input read error"
  \/ exists what pos, e = verbose what pos.
Proof.
  unfold Load. destruct src as [| |f].
  - intros [= <- <-]. by left.
  - intros [= <- <-]. right. by left.
  - destruct (parse f _) as [s1|e1 s1|] eqn:E; [done| |done].
    intros [= <- <-]. right. right. by apply parse_throws in E.
Qed.

Lemma Load_exceptions_witness :
  exists e s',
    Load (Opened (osm_document (way_element "7" ["5"]))) new_PreloadedXmlDatasource
    = Throw e s'
    /\ (e = SystemError "cannot open input file"
        \/ e = Exception "cannot create XML parser"
        \/ e = SystemError "input read error"
        \/ exists what pos, e = verbose what pos).
Proof.
  eexists _, _. split; [vm_compute; reflexivity|].
  eapply (Load_exceptions (Opened (osm_document (way_element "7" ["5"])))
            new_PreloadedXmlDatasource).
  vm_compute. reflexivity.
Defined.

(** X22. Load adds to what the object holds: a node stored before the call
    is still there, with the same position, when Load completes, even if
    the stream declares a node of the same id at another position. Within
    one stream the first declaration of a node id is the one kept. *)
Theorem Load_keeps_node f s s' id n :
  nodes_ s !! id = Some n ->
  Load (Opened f) s = Ok s' ->
  GetNode id s' = Val n.
Proof.
  intros Hn. unfold Load.
  destruct (parse f _) as [s1| |] eqn:E; [|done|done].
  intros [= <-]. apply (parse_keeps_node f _ s1 id n) in E; [|done].
  unfold GetNode, postprocess. destruct (BBoxi.IsEmpty _); cbn; by rewrite E.
Qed.

Lemma Load_keeps_node_witness :
  exists s',
    Load (Opened (osm_document (node_element "5" "0" "0"))) closing_way_7 = Ok s'
    /\ GetNode 5 s' = Val (mkNode 10000000 20000000).
Proof.
  assert (E : exists s',
             Load (Opened (osm_document (node_element "5" "0" "0"))) closing_way_7
             = Ok s').
  { eexists. vm_compute. reflexivity. }
  destruct E as [s' E]. exists s'. split; [exact E|].
  apply (Load_keeps_node (osm_document (node_element "5" "0" "0"))
           closing_way_7 s' 5 (mkNode 10000000 20000000));
    [reflexivity | exact E].
Defined.

(** ** GetWays *)

#[local] Instance key_le_trans : Transitive key_le.
Proof. intros a b c. unfold key_le. lia. Qed.

#[local] Instance key_le_total : Total key_le.
Proof. intros a b. unfold key_le. lia. Qed.

Lemma ways_in_order_perm (ways : gmap Z Way) :
  ways_in_order ways ≡ₚ map_to_list ways.
Proof. apply merge_sort_Permutation. Qed.

Lemma elem_of_ways_in_order (ways : gmap Z Way) id way :
  (id, way) ∈ ways_in_order ways <-> ways !! id = Some way.
Proof. by rewrite ways_in_order_perm, elem_of_map_to_list. Qed.

Lemma filter_keeps_sorted (P : Z * Way -> Prop) `{forall x, Decision (P x)} l :
  StronglySorted key_le l -> StronglySorted key_le (filter P l).
Proof.
  induction 1 as [|x l Hs IH Hall]; [constructor|].
  rewrite filter_cons. destruct (decide (P x)); [|done].
  constructor; [done|].
  apply Forall_forall. intros y Hy. apply list_elem_of_filter in Hy as [_ Hy].
  by apply (proj1 (Forall_forall _ _) Hall).
Qed.

Lemma filter_keeps_NoDup_keys (P : Z * Way -> Prop) `{forall x, Decision (P x)} l :
  NoDup l.*1 -> NoDup (filter P l).*1.
Proof.
  induction l as [|x l IH]; [done|].
  cbn [fmap list_fmap]. rewrite NoDup_cons. intros [Hx Hl].
  rewrite filter_cons. destruct (decide (P x)); [|by apply IH].
  cbn [fmap list_fmap]. apply NoDup_cons. split; [|by apply IH].
  intros Hin. apply Hx.
  apply list_elem_of_fmap in Hin as (y & -> & Hy).
  apply list_elem_of_filter in Hy as [_ Hy].
  by apply list_elem_of_fmap_2.
Qed.

Section GetWays_correct.
Variable Intersects : BBoxi -> BBoxi -> bool.

Lemma GetWays_loop_filter l bbox out :
  GetWays_loop Intersects l bbox out
  = (out ++ (filter (fun kw => Intersects (BBox kw.2) bbox = true) l).*2)%list.
Proof.
  revert out. induction l as [|[k way] l IH]; intros out.
  - cbn. by rewrite app_nil_r.
  - cbn [GetWays_loop]. rewrite IH, filter_cons. cbn [snd].
    destruct (Intersects (BBox way) bbox).
    + rewrite decide_True by done. cbn. by rewrite <- app_assoc.
    + rewrite decide_False by done. done.
Qed.

(** X23. GetWays keeps what the output vector already holds and appends to
    it the stored ways whose box passes the intersection test against the
    query box: each of them once, no other way, in ascending order of way
    id. With no way stored, or after Clear, nothing is appended. *)
Theorem GetWays_appends out bbox s :
  exists found : list (Z * Way),
    GetWays Intersects out bbox s = (out ++ found.*2)%list
    /\ StronglySorted key_le found /\ NoDup found.*1
    /\ (forall id way,
          (id, way) ∈ found
          <-> ways_ s !! id = Some way /\ Intersects (BBox way) bbox = true)
    /\ GetWays Intersects out bbox (Clear s) = out.
Proof.
  exists (filter (fun kw => Intersects (BBox kw.2) bbox = true)
            (ways_in_order (ways_ s))).
  split; [apply GetWays_loop_filter|].
  split; [apply filter_keeps_sorted, StronglySorted_merge_sort; apply _|].
  split.
  { apply filter_keeps_NoDup_keys.
    rewrite ways_in_order_perm. apply NoDup_fst_map_to_list. }
  split.
  { intros id way. rewrite list_elem_of_filter, elem_of_ways_in_order. cbn. tauto. }
  unfold GetWays, Clear. cbn [ways_ set_relations set_ways set_nodes].
  unfold ways_in_order. by rewrite map_to_list_empty.
Qed.

End GetWays_correct.

Lemma member_bad_type_rejected_witness :
  StartElement "member" [("ref", "1"); ("type", "area"); ("role", "x")]
    inside_relation_9
  = Throw (ParsingException "bad relation member role") inside_relation_9.
Proof.
  apply (member_bad_type_rejected inside_relation_9 [("ref", "1")] "area"
           [("role", "x")]); try done.
  apply Forall_cons. split; [by left|apply Forall_nil_2].
Defined.
